(** * taro-fetch-event-source: a shallow embedding of [fetchEventSource]

    The development follows the TypeScript sources:
    - the hand-written UTF-8 decoder [uint8ArrayToUtf8];
    - the closure variables of [fetchEventSource] ([requestTask],
      [retryCount], [retryTimer], [isAborted], [lastEventId], [buffer])
      and the functions closing over them ([abort], [connect],
      [scheduleRetry], [handleChunk] and the transport callbacks).

    JavaScript strings are sequences of UTF-16 code units and are modelled
    as [list Z]; a [Uint8Array] is a [list Z] of values below 256. *)

From Stdlib Require Import ZArith Lia List Bool Ascii String.
From stdpp Require Import base tactics option list gmap.

Local Open Scope Z_scope.

(** ** JavaScript strings *)

Abbreviation jsstring := (list Z).

(** A string literal of the source, as code units. *)
Definition js (s : string) : jsstring :=
  List.map (fun a => Z.of_nat (nat_of_ascii a)) (list_ascii_of_string s).

(** The code unit of ["\n"]. *)
Definition LF : Z := 10.
(** The code unit of ["\r"]. *)
Definition CR : Z := 13.

(** [String.fromCharCode(c)]: the argument is truncated to 16 bits. *)
Definition fromCharCode (c : Z) : Z := c mod 65536.

(** Truthiness of a string: only [""] is falsy. *)
Definition truthy (s : jsstring) : bool :=
  match s with [] => false | _ :: _ => true end.

Definition jsstring_eqb (a b : jsstring) : bool := bool_decide (a = b).

(** ** The byte decoder [uint8ArrayToUtf8] *)

(** [uint8Array[i]]; every read of the source is guarded by a bound check,
    so the default is never observed. *)
Definition at_index (uint8Array : list Z) (i : nat) : Z :=
  default 0 (uint8Array !! i).

(** [(b & 0xc0) !== 0x80] *)
Definition not_continuation (b : Z) : bool := negb (Z.land b 0xc0 =? 0x80).

(** The [while (i < len)] loop.  Every iteration that does not [break]
    advances [i], so [len] iterations always suffice ([fuel]). *)
Fixpoint decode_loop (fuel : nat) (uint8Array : list Z) (i : nat)
    (result : jsstring) : jsstring :=
  match fuel with
  | O => result
  | S fuel =>
    let len := length uint8Array in
    if negb (i <? len)%nat then result else
    let byte := at_index uint8Array i in
    if byte <? 0x80 then
      decode_loop fuel uint8Array (i + 1)%nat (result ++ [fromCharCode byte])
    else if (0xc2 <=? byte) && (byte <=? 0xdf) then
      if (len <=? i + 1)%nat then result else
      let byte2 := at_index uint8Array (i + 1)%nat in
      if not_continuation byte2 then result else
      let codepoint :=
        Z.lor (Z.shiftl (Z.land byte 0x1f) 6) (Z.land byte2 0x3f) in
      decode_loop fuel uint8Array (i + 2)%nat (result ++ [fromCharCode codepoint])
    else if (0xe0 <=? byte) && (byte <=? 0xef) then
      if (len <=? i + 2)%nat then result else
      let byte2 := at_index uint8Array (i + 1)%nat in
      let byte3 := at_index uint8Array (i + 2)%nat in
      if not_continuation byte2 || not_continuation byte3 then result else
      let codepoint :=
        Z.lor (Z.lor (Z.shiftl (Z.land byte 0x0f) 12)
                     (Z.shiftl (Z.land byte2 0x3f) 6))
              (Z.land byte3 0x3f) in
      if (codepoint <? 0xd800) || (0xe000 <=? codepoint) then
        decode_loop fuel uint8Array (i + 3)%nat (result ++ [fromCharCode codepoint])
      else
        decode_loop fuel uint8Array (i + 3)%nat (result ++ [fromCharCode codepoint])
    else if (0xf0 <=? byte) && (byte <=? 0xf4) then
      if (len <=? i + 3)%nat then result else
      let byte2 := at_index uint8Array (i + 1)%nat in
      let byte3 := at_index uint8Array (i + 2)%nat in
      let byte4 := at_index uint8Array (i + 3)%nat in
      if not_continuation byte2 || not_continuation byte3
         || not_continuation byte4 then result else
      let codepoint :=
        Z.lor (Z.lor (Z.lor (Z.shiftl (Z.land byte 0x07) 18)
                            (Z.shiftl (Z.land byte2 0x3f) 12))
                     (Z.shiftl (Z.land byte3 0x3f) 6))
              (Z.land byte4 0x3f) in
      if 0xffff <? codepoint then
        let codepoint := codepoint - 0x10000 in
        let highSurrogate := 0xd800 + Z.shiftr codepoint 10 in
        let lowSurrogate := 0xdc00 + Z.land codepoint 0x3ff in
        decode_loop fuel uint8Array (i + 4)%nat
          (result ++ [fromCharCode highSurrogate; fromCharCode lowSurrogate])
      else
        decode_loop fuel uint8Array (i + 4)%nat (result ++ [fromCharCode codepoint])
    else
      decode_loop fuel uint8Array (i + 1)%nat result
  end.

Definition uint8ArrayToUtf8 (uint8Array : list Z) : jsstring :=
  decode_loop (length uint8Array) uint8Array 0 [].

(** *** The loop, read off the remaining bytes

    [decode_from bytes] is what the loop appends to [result] when the bytes
    from index [i] on are [bytes]; [decode_loop_from] relates the two. *)

Definition codepoint2 (byte byte2 : Z) : Z :=
  Z.lor (Z.shiftl (Z.land byte 0x1f) 6) (Z.land byte2 0x3f).

Definition codepoint3 (byte byte2 byte3 : Z) : Z :=
  Z.lor (Z.lor (Z.shiftl (Z.land byte 0x0f) 12)
               (Z.shiftl (Z.land byte2 0x3f) 6))
        (Z.land byte3 0x3f).

Definition codepoint4 (byte byte2 byte3 byte4 : Z) : Z :=
  Z.lor (Z.lor (Z.lor (Z.shiftl (Z.land byte 0x07) 18)
                      (Z.shiftl (Z.land byte2 0x3f) 12))
               (Z.shiftl (Z.land byte3 0x3f) 6))
        (Z.land byte4 0x3f).

Definition units4 (codepoint : Z) : jsstring :=
  if 0xffff <? codepoint then
    [fromCharCode (0xd800 + Z.shiftr (codepoint - 0x10000) 10);
     fromCharCode (0xdc00 + Z.land (codepoint - 0x10000) 0x3ff)]
  else [fromCharCode codepoint].

Fixpoint decode_from (bytes : list Z) : jsstring :=
  match bytes with
  | [] => []
  | byte :: r1 =>
    if byte <? 0x80 then fromCharCode byte :: decode_from r1
    else if (0xc2 <=? byte) && (byte <=? 0xdf) then
      match r1 with
      | byte2 :: r2 =>
        if not_continuation byte2 then []
        else fromCharCode (codepoint2 byte byte2) :: decode_from r2
      | _ => []
      end
    else if (0xe0 <=? byte) && (byte <=? 0xef) then
      match r1 with
      | byte2 :: byte3 :: r3 =>
        if not_continuation byte2 || not_continuation byte3 then []
        else fromCharCode (codepoint3 byte byte2 byte3) :: decode_from r3
      | _ => []
      end
    else if (0xf0 <=? byte) && (byte <=? 0xf4) then
      match r1 with
      | byte2 :: byte3 :: byte4 :: r4 =>
        if not_continuation byte2 || not_continuation byte3
           || not_continuation byte4 then []
        else units4 (codepoint4 byte byte2 byte3 byte4) ++ decode_from r4
      | _ => []
      end
    else decode_from r1
  end.

(** ** Well-formed UTF-8 (Unicode, table 3-7) *)

Definition in_range (lo hi b : Z) : bool := (lo <=? b) && (b <=? hi).

Fixpoint valid_utf8 (bytes : list Z) : bool :=
  match bytes with
  | [] => true
  | b0 :: r1 =>
    if in_range 0x00 0x7f b0 then valid_utf8 r1
    else if in_range 0xc2 0xdf b0 then
      match r1 with
      | b1 :: r2 => in_range 0x80 0xbf b1 && valid_utf8 r2
      | _ => false
      end
    else if in_range 0xe0 0xef b0 then
      match r1 with
      | b1 :: b2 :: r3 =>
        (if b0 =? 0xe0 then in_range 0xa0 0xbf b1
         else if b0 =? 0xed then in_range 0x80 0x9f b1
         else in_range 0x80 0xbf b1)
        && in_range 0x80 0xbf b2 && valid_utf8 r3
      | _ => false
      end
    else if in_range 0xf0 0xf4 b0 then
      match r1 with
      | b1 :: b2 :: b3 :: r4 =>
        (if b0 =? 0xf0 then in_range 0x90 0xbf b1
         else if b0 =? 0xf4 then in_range 0x80 0x8f b1
         else in_range 0x80 0xbf b1)
        && in_range 0x80 0xbf b2 && in_range 0x80 0xbf b3 && valid_utf8 r4
      | _ => false
      end
    else false
  end.


(** ** Reference encodings

    The encodings the decoder is measured against: UTF-8 as in RFC 3629
    and UTF-16 as in RFC 2781, for Unicode scalar values. *)

Definition is_scalar (cp : Z) : bool :=
  in_range 0 0xd7ff cp || in_range 0xe000 0x10ffff cp.

Definition utf8_encode (cp : Z) : list Z :=
  if cp <? 0x80 then [cp]
  else if cp <? 0x800 then [0xc0 + cp / 64; 0x80 + cp mod 64]
  else if cp <? 0x10000 then
    [0xe0 + cp / 4096; 0x80 + (cp / 64) mod 64; 0x80 + cp mod 64]
  else
    [0xf0 + cp / 262144; 0x80 + (cp / 4096) mod 64;
     0x80 + (cp / 64) mod 64; 0x80 + cp mod 64].

Definition utf16_encode (cp : Z) : jsstring :=
  if cp <? 0x10000 then [cp]
  else [0xd800 + (cp - 0x10000) / 1024; 0xdc00 + (cp - 0x10000) mod 1024].

(** A multi-byte sequence cut short by the end of the array: a leading
    byte with fewer bytes after it than it announces. *)
Definition truncated (tail : list Z) : bool :=
  match tail with
  | [b] => in_range 0xc2 0xf4 b
  | [b; _] => in_range 0xe0 0xf4 b
  | [b; _; _] => in_range 0xf0 0xf4 b
  | _ => false
  end.

(** ** String operations used by [handleChunk] *)

Definition COLON : Z := 58.
Definition SPACE : Z := 32.

(** [s.split(sep)] for a one-character separator: never empty. *)
Fixpoint split (sep : Z) (s : jsstring) : list jsstring :=
  match s with
  | [] => [[]]
  | c :: s' =>
    if c =? sep then [] :: split sep s'
    else match split sep s' with
         | seg :: segs => (c :: seg) :: segs
         | [] => [[c]]
         end
  end.

(** [s.startsWith(c)] for a one-character prefix. *)
Definition startsWith (c : Z) (s : jsstring) : bool :=
  match s with
  | c' :: _ => c' =? c
  | [] => false
  end.

(** [s.indexOf(c)]: the first position of [c], or [-1]. *)
Fixpoint indexOf (c : Z) (s : jsstring) : Z :=
  match s with
  | [] => -1
  | c' :: s' =>
    if c' =? c then 0
    else let k := indexOf c s' in if k <? 0 then -1 else k + 1
  end.

(** [s.substring(from, to)] and [s.substring(from)] for indices within the
    string (the only uses in the source). *)
Definition substring (s : jsstring) (from to : Z) : jsstring :=
  take (Z.to_nat (to - from)) (drop (Z.to_nat from) s).

Definition substring_from (s : jsstring) (from : Z) : jsstring :=
  drop (Z.to_nat from) s.

(** ** Messages *)

Record EventSourceMessage := {
  msg_id : option jsstring;
  msg_event : option jsstring;
  msg_data : jsstring;
}.

(** [Partial<EventSourceMessage>]: the record under construction. *)
Record PartialMessage := {
  p_id : option jsstring;
  p_event : option jsstring;
  p_data : option jsstring;
}.

Definition empty_message : PartialMessage :=
  {| p_id := None; p_event := None; p_data := None |}.

Definition DefaultRetryInterval : Z := 1000.
Definition LastEventId : jsstring := js "last-event-id".

(** ** The line grammar of [handleChunk], without its effects

    What the body of the loop computes from a line, apart from the calls it
    makes: the field name, the value, and the pending message after the
    line. *)

(** [line === "\r" || line === ""] *)
Definition is_blank (line : jsstring) : bool :=
  jsstring_eqb line [CR] || jsstring_eqb line [].

(** [colonIndex > 0 ? line.substring(0, colonIndex) : line] *)
Definition field_of (line : jsstring) : jsstring :=
  let colonIndex := indexOf COLON line in
  if 0 <? colonIndex then substring line 0 colonIndex else line.

(** [if (value.startsWith(" ")) value = value.substring(1)] *)
Definition strip_space (value : jsstring) : jsstring :=
  if startsWith SPACE value then substring_from value 1 else value.

(** The value of the line, its leading space removed. *)
Definition value_of (line : jsstring) : jsstring :=
  let colonIndex := indexOf COLON line in
  strip_space
    (if 0 <? colonIndex then substring_from line (colonIndex + 1) else []).

(** The local variable [message] after the line. *)
Definition next_message (line : jsstring) (message : PartialMessage)
    : PartialMessage :=
  if is_blank line then empty_message
  else if startsWith COLON line then message
  else if jsstring_eqb (field_of line) (js "event") then
    {| p_id := p_id message; p_event := Some (value_of line);
       p_data := p_data message |}
  else if jsstring_eqb (field_of line) (js "data") then
    {| p_id := p_id message; p_event := p_event message;
       p_data := Some (default [] (p_data message) ++ value_of line ++ [LF]) |}
  else if jsstring_eqb (field_of line) (js "id") then
    {| p_id := Some (value_of line); p_event := p_event message;
       p_data := p_data message |}
  else message.

(** The pending message at the end of a call that processed [lines]. *)
Definition pending_after (lines : list jsstring) : PartialMessage :=
  foldl (fun message line => next_message line message) empty_message lines.

(** A line that sets the [data] of the pending message. *)
Definition is_data_line (line : jsstring) : bool :=
  negb (is_blank line) && negb (startsWith COLON line)
  && negb (jsstring_eqb (field_of line) (js "event"))
  && jsstring_eqb (field_of line) (js "data").

(** [lines] after [lines.pop()], and what [pop] returned. *)
Definition complete_lines (s : jsstring) : list jsstring :=
  removelast (split LF s).

Definition partial_line (s : jsstring) : jsstring :=
  default [] (last (split LF s)).

(** ** The session: closure state, host and user callbacks *)

Section Session.

(** [U] is the state of everything outside the library (the user's
    callbacks and the transport); [Resp] the response object handed to
    [onopen]; [Val] the values that the host can throw or report. *)
Context {U Resp Val : Type}.

(** Values caught by the library: instances of its private class
    [FatalError], or anything else. *)
Inductive jsvalue :=
| FatalError (message : Val)
| Foreign (v : Val).

(** [String(err)] *)
Definition String_ (err : jsvalue) : Val :=
  match err with FatalError m => m | Foreign v => v end.

(** What a user callback does when it is invoked: it may call [abort()] on
    the returned handle (directly, or while the library awaits it), and it
    returns a value or throws. *)
Record reaction (A : Type) := {
  calls_abort : bool;
  outcome : A + Val;
}.
Arguments calls_abort {A} _.
Arguments outcome {A} _.

Record FetchEventSourceInit := {
  headers : gmap (list Z) (list Z);
  onopen : option (Resp -> U -> U * reaction unit);
  onmessage : option (EventSourceMessage -> U -> U * reaction unit);
  onclose : option (U -> U * reaction unit);
  onerror : option (jsvalue -> U -> U * reaction (option Z));
  openWhenHidden : bool;
  maxRetryCount : option Z;
}.

Record RequestTask := { header : gmap (list Z) (list Z) }.

(** What the session does to the outside, in order. *)
Inductive event :=
| EvRequest (header : gmap (list Z) (list Z))
| EvTaskAbort
| EvSetTimeout (delayMs : Z)
| EvClearTimeout
| EvOnOpen (res : Resp)
| EvOnMessage (m : EventSourceMessage)
| EvOnClose
| EvOnError (err : jsvalue)
| EvConsoleError (label : string) (err : jsvalue)
| EvConsoleWarn (label : string).

(** The [let] variables of [fetchEventSource], the host state and the
    trace of effects so far.  [retryTimer] holds the delay the pending
    timeout was armed with. *)
Record World := {
  host : U;
  requestTask : option RequestTask;
  retryCount : Z;
  retryTimer : option Z;
  isAborted : bool;
  lastEventId : jsstring;
  buffer : jsstring;
  trace : list event;
}.

Definition with_host (u : U) (w : World) : World :=
  {| host := u; requestTask := requestTask w; retryCount := retryCount w;
     retryTimer := retryTimer w; isAborted := isAborted w;
     lastEventId := lastEventId w; buffer := buffer w; trace := trace w |}.
Definition with_requestTask (t : option RequestTask) (w : World) : World :=
  {| host := host w; requestTask := t; retryCount := retryCount w;
     retryTimer := retryTimer w; isAborted := isAborted w;
     lastEventId := lastEventId w; buffer := buffer w; trace := trace w |}.
Definition with_retryCount (n : Z) (w : World) : World :=
  {| host := host w; requestTask := requestTask w; retryCount := n;
     retryTimer := retryTimer w; isAborted := isAborted w;
     lastEventId := lastEventId w; buffer := buffer w; trace := trace w |}.
Definition with_retryTimer (t : option Z) (w : World) : World :=
  {| host := host w; requestTask := requestTask w; retryCount := retryCount w;
     retryTimer := t; isAborted := isAborted w;
     lastEventId := lastEventId w; buffer := buffer w; trace := trace w |}.
Definition with_isAborted (b : bool) (w : World) : World :=
  {| host := host w; requestTask := requestTask w; retryCount := retryCount w;
     retryTimer := retryTimer w; isAborted := b;
     lastEventId := lastEventId w; buffer := buffer w; trace := trace w |}.
Definition with_lastEventId (s : jsstring) (w : World) : World :=
  {| host := host w; requestTask := requestTask w; retryCount := retryCount w;
     retryTimer := retryTimer w; isAborted := isAborted w;
     lastEventId := s; buffer := buffer w; trace := trace w |}.
Definition with_buffer (s : jsstring) (w : World) : World :=
  {| host := host w; requestTask := requestTask w; retryCount := retryCount w;
     retryTimer := retryTimer w; isAborted := isAborted w;
     lastEventId := lastEventId w; buffer := s; trace := trace w |}.
Definition with_trace (t : list event) (w : World) : World :=
  {| host := host w; requestTask := requestTask w; retryCount := retryCount w;
     retryTimer := retryTimer w; isAborted := isAborted w;
     lastEventId := lastEventId w; buffer := buffer w; trace := t |}.

(** *** A state monad with exceptions *)

Inductive completion (A : Type) :=
| Normal (a : A)
| Abrupt (err : jsvalue).
Arguments Normal {A} a.
Arguments Abrupt {A} err.

Definition M (A : Type) : Type := World -> completion A * World.

#[global] Instance M_ret : MRet M := fun A a w => (Normal a, w).

#[global] Instance M_bind : MBind M := fun A B f m w =>
  match m w with
  | (Normal a, w') => f a w'
  | (Abrupt err, w') => (Abrupt err, w')
  end.

Definition gets {A} (f : World -> A) : M A := fun w => (Normal (f w), w).
Definition modify (f : World -> World) : M unit := fun w => (Normal tt, f w).
Definition emit (e : event) : M unit :=
  modify (fun w => with_trace (trace w ++ [e]) w).
Definition throw {A} (err : jsvalue) : M A := fun w => (Abrupt err, w).

(** [try { body } catch (err) { handler }] *)
Definition try_catch {A} (body : M A) (handler : jsvalue -> M A) : M A :=
  fun w =>
    match body w with
    | (Normal a, w') => (Normal a, w')
    | (Abrupt err, w') => handler err w'
    end.

(** A call into the transport: it returns or throws. *)
Definition host_call {A} (f : U -> U * (A + Val)) : M A := fun w =>
  let '(u, r) := f (host w) in
  (match r with inl a => Normal a | inr v => Abrupt (Foreign v) end,
   with_host u w).

(** *** The host and the arguments of [fetchEventSource] *)

(** [Taro.request(...)] called with the given headers and
    [requestTask.abort()]: each returns or throws synchronously.  [decode]
    is the text decoder of [handleChunk]: [uint8ArrayToUtf8] in one variant
    of the source, a fresh [TextDecoder("utf-8")] per chunk in the other.
    [init] is the second argument of [fetchEventSource]. *)
Class Env := {
  Taro_request : gmap (list Z) (list Z) -> U -> U * (unit + Val);
  RequestTask_abort : U -> U * (unit + Val);
  decode : list Z -> jsstring;
  init : FetchEventSourceInit;
}.

Context {env : Env}.

(** *** [abort] *)

Definition abort : M unit :=
  modify (with_isAborted true);;
  task ← gets requestTask;
  (if task is Some _ then
     try_catch (emit EvTaskAbort;; host_call RequestTask_abort)
       (fun e => emit (EvConsoleError "abort error:" e));;
     modify (with_requestTask None)
   else mret tt);;
  timer ← gets retryTimer;
  (if timer is Some _ then
     emit EvClearTimeout;;
     modify (with_retryTimer None)
   else mret tt);;
  modify (with_buffer []).

(** A call of a user callback.  The callback holds the handle returned by
    [fetchEventSource], so it may abort the session before control comes
    back. *)
Definition invoke {A} (cb : U -> U * reaction A) : M A := fun w =>
  let '(u, r) := cb (host w) in
  let w1 := with_host u w in
  let w2 := if calls_abort r then snd (abort w1) else w1 in
  (match outcome r with inl a => Normal a | inr v => Abrupt (Foreign v) end,
   w2).

(** [onopen?.(res)], [onmessage?.(m)], [onclose?.()], [onerror?.(err)] *)
Definition call_onopen (res : Resp) : M unit :=
  match onopen init with
  | Some f => emit (EvOnOpen res);; invoke (f res)
  | None => mret tt
  end.

Definition call_onmessage (m : EventSourceMessage) : M unit :=
  match onmessage init with
  | Some f => emit (EvOnMessage m);; invoke (f m)
  | None => mret tt
  end.

Definition call_onclose : M unit :=
  match onclose init with
  | Some f => emit EvOnClose;; invoke f
  | None => mret tt
  end.

Definition call_onerror (err : jsvalue) : M (option Z) :=
  match onerror init with
  | Some f => emit (EvOnError err);; invoke (f err)
  | None => mret None
  end.

(** *** [scheduleRetry] *)

Definition scheduleRetry (delayMs : Z) : M unit :=
  aborted ← gets isAborted;
  if (aborted : bool) then mret tt else
  count ← gets retryCount;
  if (match maxRetryCount init with
      | Some max => max <=? count
      | None => false
      end)
  then emit (EvConsoleWarn "Max retry count reached")
  else
    modify (with_retryCount (count + 1));;
    emit (EvSetTimeout delayMs);;
    modify (with_retryTimer (Some delayMs)).

(** The [onerror]-driven retry decision shared by [fail] and the [catch] of
    [connect]. *)
Definition retry_on_error (err : jsvalue) : M unit :=
  retryDelay ← try_catch (call_onerror err) (fun _ => mret None);
  match retryDelay with
  | Some d => scheduleRetry d
  | None => mret tt
  end.

(** *** [connect] and the callbacks it registers *)

Definition connect : M unit :=
  aborted ← gets isAborted;
  if (aborted : bool) then mret tt else
  id ← gets lastEventId;
  let headers :=
    if truthy id then <[LastEventId := id]> (headers init)
    else headers init in
  try_catch
    (emit (EvRequest headers);;
     host_call (Taro_request headers);;
     modify (with_requestTask (Some {| header := headers |})))
    (fun err =>
       aborted ← gets isAborted;
       if (aborted : bool) then mret tt else
       match err with
       | FatalError _ => abort;; throw err
       | Foreign _ => retry_on_error err
       end).

(** The [success] callback of the request. *)
Definition success : M unit :=
  aborted ← gets isAborted;
  if (aborted : bool) then mret tt else
  modify (with_retryCount 0);;
  modify (with_requestTask None);;
  try_catch call_onclose (fun err => emit (EvConsoleError "onclose error:" err));;
  aborted ← gets isAborted;
  if negb (aborted : bool) && negb (openWhenHidden init)
  then scheduleRetry DefaultRetryInterval
  else mret tt.

(** The [fail] callback of the request. *)
Definition fail (err : Val) : M unit :=
  aborted ← gets isAborted;
  if (aborted : bool) then mret tt else
  modify (with_requestTask None);;
  retry_on_error (Foreign err).

(** The listener passed to [requestTask.onHeadersReceived].  The transport
    calls it; what it throws goes back to the transport. *)
Definition onHeadersReceived (res : Resp) : M unit :=
  aborted ← gets isAborted;
  if (aborted : bool) then mret tt else
  try_catch (call_onopen res)
    (fun err =>
       emit (EvConsoleError "onopen error:" err);;
       throw (FatalError (String_ err))).

(** *** [handleChunk] *)

(** The body of [for (const line of lines)]; [message] is the local
    variable of [handleChunk]. *)
Definition process_line (line : jsstring) (message : PartialMessage)
    : M PartialMessage :=
  if jsstring_eqb line [CR] || jsstring_eqb line [] then
    (match p_data message with
     | Some d =>
       call_onmessage
         {| msg_id := p_id message; msg_event := p_event message;
            msg_data := d |};;
       match p_id message with
       | Some i => if truthy i then modify (with_lastEventId i) else mret tt
       | None => mret tt
       end
     | None => mret tt
     end);;
    mret empty_message
  else if startsWith COLON line then mret message
  else
    let colonIndex := indexOf COLON line in
    let field :=
      if 0 <? colonIndex then substring line 0 colonIndex else line in
    let value :=
      if 0 <? colonIndex then substring_from line (colonIndex + 1) else [] in
    let value := if startsWith SPACE value then substring_from value 1 else value in
    if jsstring_eqb field (js "event") then
      mret {| p_id := p_id message; p_event := Some value;
              p_data := p_data message |}
    else if jsstring_eqb field (js "data") then
      mret {| p_id := p_id message; p_event := p_event message;
              p_data := Some (default [] (p_data message) ++ value ++ [LF]) |}
    else if jsstring_eqb field (js "id") then
      mret {| p_id := Some value; p_event := p_event message;
              p_data := p_data message |}
    else mret message.

Fixpoint process_lines (lines : list jsstring) (message : PartialMessage)
    : M unit :=
  match lines with
  | [] => mret tt
  | line :: lines =>
    message ← process_line line message;
    process_lines lines message
  end.

(** The [try] block of [handleChunk] from [buffer += text] on: the frame
    parser fed with decoded text. *)
Definition feed (text : jsstring) : M unit :=
  modify (fun w => with_buffer (buffer w ++ text) w);;
  buf ← gets buffer;
  let lines := split LF buf in
  modify (with_buffer (default [] (last lines)));;
  process_lines (removelast lines) empty_message.

Definition handleChunk (data : list Z) : M unit :=
  try_catch
    (let text := decode data in feed text)
    (fun err =>
       emit (EvConsoleError "handleChunk error:" err);;
       call_onerror err;;
       mret tt).

(** The listener passed to [requestTask.onChunkReceived]. *)
Definition onChunkReceived (data : list Z) : M unit :=
  aborted ← gets isAborted;
  if (aborted : bool) then mret tt else handleChunk data.

(** The callback passed to [setTimeout] by [scheduleRetry]. *)
Definition retryTimerCallback : M unit :=
  modify (with_retryTimer None);;
  connect.

(** *** The session as a transition system *)

(** What can happen to a session: the transport signals, the retry timer
    and a call of [abort] on the returned handle. *)
Inductive signal :=
| HeadersReceived (res : Resp)
| ChunkReceived (data : list Z)
| Completed
| Failed (err : Val)
| TimerFired
| AbortCalled.

Definition handler (s : signal) : M unit :=
  match s with
  | HeadersReceived res => onHeadersReceived res
  | ChunkReceived data => onChunkReceived data
  | Completed => success
  | Failed err => fail err
  | TimerFired => retryTimerCallback
  | AbortCalled => abort
  end.

(** Running a handler; what it throws is the caller's (the transport's or
    the event loop's) and does not come back to the session. *)
Definition fire (s : signal) (w : World) : World := snd (handler s w).

(** The host delivers transport signals only for a request in flight and
    fires a timeout only while it is pending. *)
Definition enabled (s : signal) (w : World) : bool :=
  match s with
  | TimerFired => bool_decide (is_Some (retryTimer w))
  | AbortCalled => true
  | _ => bool_decide (is_Some (requestTask w))
  end.

Definition deliver (w : World) (s : signal) : World :=
  if enabled s w then fire s w else w.

Definition run (sigs : list signal) (w : World) : World :=
  foldl deliver w sigs.

(** [fetchEventSource(url, init)]: fresh closure variables, then
    [connect()]. *)
Definition initial (u : U) : World :=
  {| host := u; requestTask := None; retryCount := 0; retryTimer := None;
     isAborted := false; lastEventId := []; buffer := []; trace := [] |}.

Definition fetchEventSource (u : U) : World := snd (connect (initial u)).

End Session.

Arguments FetchEventSourceInit : clear implicits.
Arguments World : clear implicits.
Arguments event : clear implicits.
Arguments signal : clear implicits.
Arguments jsvalue : clear implicits.
Arguments reaction : clear implicits.
Arguments Env : clear implicits.
Arguments Normal {Val A} a.
Arguments Abrupt {Val A} err.
Arguments calls_abort {Val A} _.
Arguments outcome {Val A} _.

(** ** Observations on traces *)

Section Observations.
Context {Resp Val : Type}.

(** The invocations of user callbacks. *)
Definition is_callback (e : event Resp Val) : bool :=
  match e with
  | EvOnOpen _ | EvOnMessage _ | EvOnClose | EvOnError _ => true
  | _ => false
  end.

Definition is_request (e : event Resp Val) : bool :=
  match e with EvRequest _ => true | _ => false end.

(** The number of connect attempts made so far. *)
Definition attempts (t : list (event Resp Val)) : nat :=
  length (List.filter is_request t).

(** The messages handed to [onmessage], in order. *)
Fixpoint messages (t : list (event Resp Val)) : list EventSourceMessage :=
  match t with
  | [] => []
  | EvOnMessage m :: t => m :: messages t
  | _ :: t => messages t
  end.

(** The headers of the requests issued, in order. *)
Fixpoint requests (t : list (event Resp Val)) : list (gmap (list Z) (list Z)) :=
  match t with
  | [] => []
  | EvRequest h :: t => h :: requests t
  | _ :: t => requests t
  end.

Definition is_timeout (e : event Resp Val) : bool :=
  match e with EvSetTimeout _ => true | _ => false end.

(** The number of retries scheduled so far. *)
Definition timeouts (t : list (event Resp Val)) : nat :=
  length (List.filter is_timeout t).

(** The effects by which the session reconnects. *)
Definition reconnects (e : event Resp Val) : bool :=
  is_request e || is_timeout e.

End Observations.

(** ** Concrete sessions

    A host whose calls never throw, and user callbacks without state. *)

Module Scenario.

Definition returns {A} (a : A) : reaction unit A :=
  {| calls_abort := false; outcome := inl a |}.

Definition throws {A} : reaction unit A :=
  {| calls_abort := false; outcome := inr tt |}.

Definition request_ok (_ : gmap (list Z) (list Z)) (u : unit)
    : unit * (unit + unit) := (u, inl tt).

Definition abort_ok (u : unit) : unit * (unit + unit) := (u, inl tt).

(** Every callback present and returning; [onerror] asks for a retry after
    1000 ms. *)
Definition config (max : option Z) : FetchEventSourceInit unit unit unit :=
  {| headers := ∅;
     onopen := Some (fun _ u => (u, returns tt));
     onmessage := Some (fun _ u => (u, returns tt));
     onclose := Some (fun u => (u, returns tt));
     onerror := Some (fun _ u => (u, returns (Some 1000)));
     openWhenHidden := false;
     maxRetryCount := max |}.

(** The same, with an [onopen] that throws. *)
Definition config_onopen_throws : FetchEventSourceInit unit unit unit :=
  {| headers := ∅;
     onopen := Some (fun _ u => (u, throws));
     onmessage := Some (fun _ u => (u, returns tt));
     onclose := Some (fun u => (u, returns tt));
     onerror := Some (fun _ u => (u, returns (Some 1000)));
     openWhenHidden := false;
     maxRetryCount := None |}.

(** Every callback present and returning, with [openWhenHidden] set. *)
Definition config_openWhenHidden : FetchEventSourceInit unit unit unit :=
  {| headers := ∅;
     onopen := Some (fun _ u => (u, returns tt));
     onmessage := Some (fun _ u => (u, returns tt));
     onclose := Some (fun u => (u, returns tt));
     onerror := Some (fun _ u => (u, returns (Some 1000)));
     openWhenHidden := true;
     maxRetryCount := None |}.

(** The decoder is [uint8ArrayToUtf8]. *)
Definition env (i : FetchEventSourceInit unit unit unit) : Env unit unit unit :=
  {| Taro_request := request_ok;
     RequestTask_abort := abort_ok;
     decode := uint8ArrayToUtf8;
     init := i |}.

(** [fetchEventSource] followed by the given signals. *)
Definition session (i : FetchEventSourceInit unit unit unit)
    (sigs : list (signal unit unit)) : World unit unit unit :=
  @run _ _ _ (env i) sigs (@fetchEventSource _ _ _ (env i) tt).

(** The frame parser fed with successive texts, from a fresh session. *)
Definition fed (texts : list jsstring) : World unit unit unit :=
  foldl (fun w text => snd (@feed _ _ _ (env (config None)) text w))
    (initial tt) texts.

End Scenario.

(** ** Invariants of the session *)

Section Invariants.
Context {U Resp Val : Type} {env : Env U Resp Val}.

(** [m] keeps [I], whether it returns or throws. *)
Definition preserves {A} (I : World U Resp Val -> Prop) (m : M A) : Prop :=
  forall w, I w -> I (snd (m w)).

(** Properties of the world that do not depend on the host state, on the
    request in flight, on the buffer, on the aborted flag being raised, on
    the timer being cleared, or on effects other than a new request. *)
Record stable (I : World U Resp Val -> Prop) : Prop := {
  stable_host : forall u w, I w -> I (with_host u w);
  stable_isAborted : forall w, I w -> I (with_isAborted true w);
  stable_requestTask : forall t w, I w -> I (with_requestTask t w);
  stable_retryTimer : forall w, I w -> I (with_retryTimer None w);
  stable_buffer : forall s w, I w -> I (with_buffer s w);
  stable_emit : forall e w,
    is_request e = false -> I w -> I (with_trace (trace w ++ [e]) w);
}.

(** The retry budget [n]: every connect attempt but the first was paid for
    by one unit of [retryCount], and a pending timeout has been paid for
    but not yet used. *)
Definition pending (w : World U Resp Val) : Z :=
  if retryTimer w is Some _ then 1 else 0.

Definition within_budget (n : Z) (w : World U Resp Val) : Prop :=
  Z.of_nat (attempts (trace w)) + pending w <= 1 + retryCount w /\
  retryCount w <= n.



(** The state [abort] leaves behind. *)
Definition halted (w : World U Resp Val) : Prop :=
  isAborted w = true /\ requestTask w = None /\ retryTimer w = None /\
  buffer w = [].

(** Whether [scheduleRetry] arms a timer: the session is not aborted and
    the retry count is below the configured maximum, if any. *)
Definition can_retry (w : World U Resp Val) : bool :=
  negb (isAborted w) &&
  match maxRetryCount init with
  | Some max => negb (max <=? retryCount w)
  | None => true
  end.

(** What the [success] callback shows of [onclose] in a world with host
    state [host w]: the call, and the log line if it throws. *)
Definition onclose_events (w : World U Resp Val) : list (event Resp Val) :=
  match onclose init with
  | None => []
  | Some f =>
    EvOnClose ::
    match outcome (snd (f (host w))) with
    | inl _ => []
    | inr v => [EvConsoleError "onclose error:" (Foreign v)]
    end
  end.

(** Properties kept by everything a user callback can do to the session:
    change the host state, and call [abort]; and by every effect other
    than a request or a timer. *)
Record settled (I : World U Resp Val -> Prop) : Prop := {
  settled_host : forall u w, I w -> I (with_host u w);
  settled_isAborted : forall w, I w -> I (with_isAborted true w);
  settled_requestTask : forall w, I w -> I (with_requestTask None w);
  settled_retryTimer : forall w, I w -> I (with_retryTimer None w);
  settled_buffer : forall w, I w -> I (with_buffer [] w);
  settled_emit : forall e w,
    reconnects e = false -> I w -> I (with_trace (trace w ++ [e]) w);
}.

(** An [onmessage] that, if present, always returns and never aborts the
    session. *)
Definition quiet_onmessage : Prop :=
  match onmessage init with
  | None => True
  | Some f =>
    forall m u, snd (f m u) = {| calls_abort := false; outcome := inl tt |}
  end.

(** An [onerror] that, if present, never throws. *)
Definition onerror_returns : Prop :=
  match onerror init with
  | None => True
  | Some f => forall err u, exists d, outcome (snd (f err u)) = inl d
  end.


(** The retry count stays within its bounds. *)
Definition count_in_bounds (w : World U Resp Val) : Prop :=
  0 <= retryCount w /\
  match maxRetryCount init with
  | Some max => retryCount w <= Z.max max 0
  | None => True
  end.

(** The delay [onerror] answers a failure with, if any. *)
Definition onerror_delay (err : jsvalue Val) (w : World U Resp Val)
    : option Z :=
  match onerror init with
  | None => None
  | Some f =>
    match outcome (snd (f err (host w))) with
    | inl d => d
    | inr _ => None
    end
  end.

End Invariants.

(** Unfolding the monad. *)
Ltac munfold :=
  unfold mbind, mret, M_bind, M_ret, gets, modify, emit, throw, try_catch,
    host_call in *.

Ltac side := first [reflexivity | lia].

(** ** Properties of the decoder *)

Lemma drop_at_index (a : list Z) (i : nat) :
  (i < length a)%nat -> drop i a = at_index a i :: drop (S i) a.
Proof.
  intros Hi. destruct (lookup_lt_is_Some_2 a i Hi) as [x Hx].
  unfold at_index. rewrite Hx. simpl. by apply drop_S.
Qed.

Lemma decode_loop_from (fuel : nat) (a : list Z) :
  forall (i : nat) (result : jsstring),
    (length a - i <= fuel)%nat ->
    decode_loop fuel a i result = result ++ decode_from (drop i a).
Proof.
  induction fuel as [|fuel IH]; intros i result Hfuel.
  - simpl. rewrite drop_ge by lia. simpl. by rewrite app_nil_r.
  - cbn [decode_loop].
    destruct (Nat.ltb_spec i (length a)) as [Hi|Hi]; cbn [negb].
    2:{ rewrite drop_ge by lia. simpl. by rewrite app_nil_r. }
    rewrite (drop_at_index a i Hi). cbn [decode_from].
    set (byte := at_index a i).
    replace (i + 1)%nat with (S i) by lia.
    destruct (byte <? 128).
    { rewrite IH by lia. by rewrite <- app_assoc. }
    destruct ((194 <=? byte) && (byte <=? 223)).
    { destruct (Nat.leb_spec (length a) (S i)) as [H1|H1].
      { rewrite drop_ge by lia. by rewrite app_nil_r. }
      rewrite (drop_at_index a (S i)) by lia.
      destruct (not_continuation (at_index a (S i))).
      { by rewrite app_nil_r. }
      replace (i + 2)%nat with (S (S i)) by lia.
      rewrite IH by lia. by rewrite <- app_assoc. }
    destruct ((224 <=? byte) && (byte <=? 239)).
    { replace (i + 2)%nat with (S (S i)) by lia.
      destruct (Nat.leb_spec (length a) (S (S i))) as [H1|H1].
      { destruct (Nat.eq_dec (length a) (S (S i))) as [E|E].
        - rewrite (drop_at_index a (S i)) by lia.
          rewrite (drop_ge a (S (S i))) by lia. by rewrite app_nil_r.
        - rewrite (drop_ge a (S i)) by lia. by rewrite app_nil_r. }
      rewrite (drop_at_index a (S i)) by lia.
      rewrite (drop_at_index a (S (S i))) by lia.
      destruct (not_continuation (at_index a (S i))
                || not_continuation (at_index a (S (S i)))).
      { by rewrite app_nil_r. }
      replace (i + 3)%nat with (S (S (S i))) by lia.
      fold (codepoint3 byte (at_index a (S i)) (at_index a (S (S i)))).
      destruct ((_ <? 55296) || (57344 <=? _));
        rewrite IH by lia; by rewrite <- app_assoc. }
    destruct ((240 <=? byte) && (byte <=? 244)).
    { replace (i + 2)%nat with (S (S i)) by lia.
      replace (i + 3)%nat with (S (S (S i))) by lia.
      destruct (Nat.leb_spec (length a) (S (S (S i)))) as [H1|H1].
      { destruct (Nat.le_gt_cases (length a) (S i)) as [E1|E1].
        { rewrite (drop_ge a (S i)) by lia. by rewrite app_nil_r. }
        rewrite (drop_at_index a (S i)) by lia.
        destruct (Nat.le_gt_cases (length a) (S (S i))) as [E2|E2].
        { rewrite (drop_ge a (S (S i))) by lia. by rewrite app_nil_r. }
        rewrite (drop_at_index a (S (S i))) by lia.
        rewrite (drop_ge a (S (S (S i)))) by lia. by rewrite app_nil_r. }
      rewrite (drop_at_index a (S i)) by lia.
      rewrite (drop_at_index a (S (S i))) by lia.
      rewrite (drop_at_index a (S (S (S i)))) by lia.
      destruct (not_continuation (at_index a (S i))
                || not_continuation (at_index a (S (S i)))
                || not_continuation (at_index a (S (S (S i))))).
      { by rewrite app_nil_r. }
      replace (i + 4)%nat with (S (S (S (S i)))) by lia.
      fold (codepoint4 byte (at_index a (S i)) (at_index a (S (S i)))
              (at_index a (S (S (S i))))).
      unfold units4.
      destruct (65535 <? _); rewrite IH by lia; by rewrite <- app_assoc. }
    rewrite IH by lia. done.
Qed.

(** The loop terminates within its fuel: [uint8ArrayToUtf8] is the decoding
    of the whole array. *)
Lemma uint8ArrayToUtf8_from (a : list Z) :
  uint8ArrayToUtf8 a = decode_from a.
Proof.
  unfold uint8ArrayToUtf8. rewrite decode_loop_from by lia. by rewrite drop_0.
Qed.

(** More fuel than the length of the array does not change the result. *)
Lemma decode_loop_fuel (fuel : nat) (a : list Z) :
  (length a <= fuel)%nat -> decode_loop fuel a 0 [] = uint8ArrayToUtf8 a.
Proof.
  intros H. unfold uint8ArrayToUtf8. by rewrite !decode_loop_from by lia.
Qed.

Lemma continuation_range (b : Z) :
  in_range 0x80 0xbf b = true -> not_continuation b = false.
Proof.
  unfold in_range, not_continuation. intros H.
  apply andb_true_iff in H as [Hlo Hhi].
  apply Z.leb_le in Hlo, Hhi.
  assert (Hk : exists k : nat, (k < 64)%nat /\ b = 128 + Z.of_nat k).
  { exists (Z.to_nat (b - 128)). lia. }
  destruct Hk as (k & Hk & ->).
  do 64 (destruct k as [|k]; [reflexivity|]). lia.
Qed.

Lemma valid_utf8_length_ind (P : list Z -> Prop) :
  (forall l, (forall l', (length l' < length l)%nat -> P l') -> P l) ->
  forall l, P l.
Proof.
  intros H l. remember (length l) as n eqn:Hn.
  revert l Hn. induction (lt_wf n) as [n _ IH]. intros l ->.
  apply H. intros l' Hl'. by apply (IH (length l')).
Qed.

(** Decoding a well-formed prefix consumes exactly that prefix: what follows
    is decoded independently. *)
Lemma decode_from_app (pre post : list Z) :
  valid_utf8 pre = true ->
  decode_from (pre ++ post) = decode_from pre ++ decode_from post.
Proof.
  revert pre. refine (valid_utf8_length_ind _ _). intros b1 IH Hv.
  destruct b1 as [|b0 r1]; [done|].
  cbn [valid_utf8] in Hv. cbn [app decode_from].
  destruct (in_range 0 127 b0) eqn:H1.
  { unfold in_range in H1. apply andb_true_iff in H1 as [_ H1].
    replace (b0 <? 128) with true by (symmetry; apply Z.ltb_lt; lia).
    rewrite IH; [done | simpl; lia | done]. }
  assert (Hge : (b0 <? 128) = false).
  { destruct (Z.ltb_spec b0 128) as [Hlt|]; [|done].
    destruct (Z.leb_spec 0 b0) as [Hnn|Hneg].
    - unfold in_range in H1. apply andb_false_iff in H1 as [H1|H1]; lia.
    - exfalso. unfold in_range in Hv.
      replace (194 <=? b0) with false in Hv by lia.
      replace (224 <=? b0) with false in Hv by lia.
      replace (240 <=? b0) with false in Hv by lia.
      done. }
  rewrite Hge. unfold in_range in Hv at 1.
  destruct ((194 <=? b0) && (b0 <=? 223)).
  { destruct r1 as [|b1 r2]; [done|].
    apply andb_true_iff in Hv as [Hc Hv].
    cbn [app]. rewrite (continuation_range _ Hc).
    rewrite IH; [done | simpl; lia | done]. }
  unfold in_range in Hv at 1.
  destruct ((224 <=? b0) && (b0 <=? 239)).
  { destruct r1 as [|b1 [|b2 r3]]; [done..|].
    apply andb_true_iff in Hv as [Hv Hr].
    apply andb_true_iff in Hv as [Hc1 Hc2].
    assert (Hc1' : in_range 128 191 b1 = true).
    { unfold in_range in *. destruct (b0 =? 224); [|destruct (b0 =? 237)]; lia. }
    cbn [app]. rewrite (continuation_range _ Hc1'), (continuation_range _ Hc2).
    cbn [orb]. rewrite IH; [done | simpl; lia | done]. }
  unfold in_range in Hv at 1.
  destruct ((240 <=? b0) && (b0 <=? 244)); [|done].
  destruct r1 as [|b1 [|b2 [|b3 r4]]]; [done..|].
  apply andb_true_iff in Hv as [Hv Hr].
  apply andb_true_iff in Hv as [Hv Hc3].
  apply andb_true_iff in Hv as [Hc1 Hc2].
  assert (Hc1' : in_range 128 191 b1 = true).
  { unfold in_range in *. destruct (b0 =? 240); [|destruct (b0 =? 244)]; lia. }
  cbn [app].
  rewrite (continuation_range _ Hc1'), (continuation_range _ Hc2),
    (continuation_range _ Hc3).
  cbn [orb]. rewrite IH; [by rewrite app_assoc | simpl; lia | done].
Qed.

Lemma uint8ArrayToUtf8_app (pre post : list Z) :
  valid_utf8 pre = true ->
  uint8ArrayToUtf8 (pre ++ post) = uint8ArrayToUtf8 pre ++ uint8ArrayToUtf8 post.
Proof. rewrite !uint8ArrayToUtf8_from. apply decode_from_app. Qed.

Lemma valid_utf8_app (pre post : list Z) :
  valid_utf8 pre = true -> valid_utf8 (pre ++ post) = valid_utf8 post.
Proof.
  revert pre. refine (valid_utf8_length_ind _ _). intros b1 IH Hv.
  destruct b1 as [|b0 r1]; [done|].
  cbn [valid_utf8] in Hv. cbn [app valid_utf8].
  destruct (in_range 0 127 b0).
  { apply IH; [simpl; lia | done]. }
  destruct (in_range 194 223 b0).
  { destruct r1 as [|b1 r2]; [done|].
    apply andb_true_iff in Hv as [Hc Hv]. cbn [app]. rewrite Hc. cbn [andb].
    apply IH; [simpl; lia | done]. }
  destruct (in_range 224 239 b0).
  { destruct r1 as [|b1 [|b2 r3]]; [done..|].
    apply andb_true_iff in Hv as [Hv Hr]. cbn [app]. rewrite Hv. cbn [andb].
    apply IH; [simpl; lia | done]. }
  destruct (in_range 240 244 b0); [|done].
  destruct r1 as [|b1 [|b2 [|b3 r4]]]; [done..|].
  apply andb_true_iff in Hv as [Hv Hr]. cbn [app]. rewrite Hv. cbn [andb].
  apply IH; [simpl; lia | done].
Qed.

(** *** Chunk boundaries *)

(** C1 (as stated, refuted): the two bytes of U+00E9 are well-formed UTF-8,
    and decoding them as one chunk gives one character, but decoding them
    split after the first byte gives nothing: the first chunk ends in a
    truncated sequence (the loop breaks), and the second starts with a
    lone continuation byte (skipped). *)
Lemma split_inside_codepoint_differs :
  valid_utf8 [0xc3; 0xa9] = true /\
  uint8ArrayToUtf8 [0xc3; 0xa9] = [0xe9] /\
  uint8ArrayToUtf8 (take 1 [0xc3; 0xa9])
    ++ uint8ArrayToUtf8 (drop 1 [0xc3; 0xa9]) = [] /\
  uint8ArrayToUtf8 [0xc3; 0xa9] <>
    uint8ArrayToUtf8 (take 1 [0xc3; 0xa9])
      ++ uint8ArrayToUtf8 (drop 1 [0xc3; 0xa9]).
Proof. repeat split; try reflexivity. vm_compute. discriminate. Qed.

(** C1 (amended): when every chunk is itself well-formed UTF-8, that is
    when every split falls on a codepoint boundary, decoding the whole
    sequence equals decoding the chunks in order and concatenating. *)
Theorem chunk_boundary_independence (chunks : list (list Z)) :
  Forall (fun chunk => valid_utf8 chunk = true) chunks ->
  valid_utf8 (concat chunks) = true /\
  uint8ArrayToUtf8 (concat chunks) = concat (List.map uint8ArrayToUtf8 chunks).
Proof.
  induction 1 as [|chunk chunks Hc _ [IHv IHd]]; [done|].
  cbn [concat List.map]. split.
  - by rewrite valid_utf8_app.
  - rewrite uint8ArrayToUtf8_app by done. by rewrite IHd.
Qed.

Lemma chunk_boundary_independence_witness :
  valid_utf8
    (concat [[0x68]; [0xc3; 0xa9]; [0xf0; 0x9f; 0x98; 0x80]; [0x0a]]) = true /\
  uint8ArrayToUtf8
    (concat [[0x68]; [0xc3; 0xa9]; [0xf0; 0x9f; 0x98; 0x80]; [0x0a]]) =
  concat (List.map uint8ArrayToUtf8
            [[0x68]; [0xc3; 0xa9]; [0xf0; 0x9f; 0x98; 0x80]; [0x0a]]).
Proof.
  apply chunk_boundary_independence.
  repeat (apply Forall_cons; split; [reflexivity|]). apply Forall_nil_2.
Defined.

(** The same at a single offset. *)
Lemma split_on_boundary (bytes : list Z) (k : nat) :
  valid_utf8 (take k bytes) = true ->
  uint8ArrayToUtf8 bytes =
    uint8ArrayToUtf8 (take k bytes) ++ uint8ArrayToUtf8 (drop k bytes).
Proof.
  intros H. rewrite <- (take_drop k bytes) at 1. by apply uint8ArrayToUtf8_app.
Qed.

(** *** Malformed input *)

(** An invalid leading byte is skipped and decoding goes on. *)
Lemma invalid_lead_skipped (b : Z) (rest : list Z) :
  in_range 0x80 0xc1 b = true \/ 0xf5 <= b ->
  uint8ArrayToUtf8 (b :: rest) = uint8ArrayToUtf8 rest.
Proof.
  intros H. rewrite !uint8ArrayToUtf8_from. cbn [decode_from].
  unfold in_range in H.
  replace (b <? 128) with false by lia.
  replace ((194 <=? b) && (b <=? 223)) with false by lia.
  replace ((224 <=? b) && (b <=? 239)) with false by lia.
  replace ((240 <=? b) && (b <=? 244)) with false by lia.
  done.
Qed.

(** A leading byte followed by a byte that is not a continuation byte ends
    the loop: whatever follows in the chunk is dropped. *)
Lemma invalid_continuation_breaks (b b2 : Z) (rest : list Z) :
  in_range 0xc2 0xdf b = true -> not_continuation b2 = true ->
  uint8ArrayToUtf8 (b :: b2 :: rest) = [].
Proof.
  intros Hb H2. rewrite uint8ArrayToUtf8_from. cbn [decode_from].
  unfold in_range in Hb. replace (b <? 128) with false by lia.
  by rewrite Hb, H2.
Qed.

(** C9 (the code at the failing input): after the lead byte [0xc3], the
    byte ["A"] is not a continuation byte; the decoder returns the empty
    string for the chunk, although ["AB"] alone decodes to itself. *)
Theorem invalid_continuation_drops_rest :
  uint8ArrayToUtf8 [0xc3; 0x41; 0x42] = [] /\
  uint8ArrayToUtf8 [0x41; 0x42] = [0x41; 0x42] /\
  uint8ArrayToUtf8 [0x80; 0x41; 0x42] = [0x41; 0x42].
Proof. repeat split; reflexivity. Qed.

(** ** The frame parser on concrete input *)

(** C2 (the code at the failing input): the record ["data: hello"] followed
    by its blank-line terminator is delivered when both arrive in one call,
    and lost when the terminator arrives in the next call, because the
    pending message is a local variable of [handleChunk].  A split inside
    the line is harmless. *)
Theorem record_split_before_terminator_is_lost :
  messages (trace (Scenario.fed [js "data: hello" ++ [LF; LF]])) =
    [{| msg_id := None; msg_event := None; msg_data := js "hello" ++ [LF] |}] /\
  messages (trace (Scenario.fed [js "data: hello" ++ [LF]; [LF]])) = [] /\
  messages (trace (Scenario.fed [js "data: hel"; js "lo" ++ [LF; LF]])) =
    [{| msg_id := None; msg_event := None; msg_data := js "hello" ++ [LF] |}] /\
  messages (trace (Scenario.session (Scenario.config None)
     [ChunkReceived (js "data: hello" ++ [LF; LF])])) =
    [{| msg_id := None; msg_event := None; msg_data := js "hello" ++ [LF] |}] /\
  messages (trace (Scenario.session (Scenario.config None)
     [ChunkReceived (js "data: hello" ++ [LF]); ChunkReceived [LF]])) = [].
Proof. repeat split; vm_compute; reflexivity. Qed.

(** ** Reasoning about the session *)

Section SessionProperties.
Context {U Resp Val : Type} {env : Env U Resp Val}.

Implicit Types (w : World U Resp Val) (I : World U Resp Val -> Prop).

(** *** Invariants of monadic code *)

Lemma preserves_ret {A} I (a : A) : preserves I (mret a).
Proof. by intros w Hw. Qed.

Lemma preserves_bind {A B} I (m : M A) (k : A -> M B) :
  preserves I m -> (forall a, preserves I (k a)) -> preserves I (m ≫= k).
Proof.
  intros Hm Hk w Hw. specialize (Hm w Hw). munfold.
  destruct (m w) as [[a|err] w']; simpl in *; [by apply Hk | done].
Qed.

Lemma preserves_gets {A} I (f : World U Resp Val -> A) : preserves I (gets f).
Proof. by intros w Hw. Qed.

Lemma preserves_throw {A} I err : preserves I (throw (A:=A) err).
Proof. by intros w Hw. Qed.

Lemma preserves_modify I (f : World U Resp Val -> World U Resp Val) :
  (forall w, I w -> I (f w)) -> preserves I (modify f).
Proof. intros Hf w Hw. by apply Hf. Qed.

Lemma preserves_try_catch {A} I (body : M A) (h : jsvalue Val -> M A) :
  preserves I body -> (forall err, preserves I (h err)) ->
  preserves I (try_catch body h).
Proof.
  intros Hb Hh w Hw. specialize (Hb w Hw). munfold.
  destruct (body w) as [[a|err] w']; simpl in *; [done | by apply Hh].
Qed.

Lemma preserves_emit I e :
  stable I -> is_request e = false -> preserves I (emit e).
Proof. intros HI He w Hw. by apply (stable_emit I HI). Qed.

Lemma preserves_host_call {A} I (f : U -> U * (A + Val)) :
  stable I -> preserves I (host_call f).
Proof.
  intros HI w Hw. munfold. destruct (f (host w)) as [u r]. simpl.
  by apply (stable_host I HI).
Qed.

Lemma preserves_abort I : stable I -> preserves I abort.
Proof.
  intros HI. unfold abort.
  apply preserves_bind; [apply preserves_modify, (stable_isAborted I HI)|].
  intros _. apply preserves_bind; [apply preserves_gets|]. intros task.
  apply preserves_bind.
  { destruct task; [|apply preserves_ret].
    apply preserves_bind.
    - apply preserves_try_catch.
      + apply preserves_bind; [by apply preserves_emit|].
        intros _. by apply preserves_host_call.
      + intros err. by apply preserves_emit.
    - intros _. apply preserves_modify, (stable_requestTask I HI). }
  intros _. apply preserves_bind; [apply preserves_gets|]. intros timer.
  apply preserves_bind.
  { destruct timer; [|apply preserves_ret].
    apply preserves_bind; [by apply preserves_emit|].
    intros _. apply preserves_modify, (stable_retryTimer I HI). }
  intros _. apply preserves_modify, (stable_buffer I HI).
Qed.

Lemma preserves_invoke {A} I (cb : U -> U * reaction Val A) :
  stable I -> preserves I (invoke cb).
Proof.
  intros HI w Hw. unfold invoke. destruct (cb (host w)) as [u r]. simpl.
  destruct (calls_abort r).
  - apply preserves_abort; [done|]. by apply (stable_host I HI).
  - by apply (stable_host I HI).
Qed.


Lemma preserves_call_onopen I res : stable I -> preserves I (call_onopen res).
Proof.
  intros HI. unfold call_onopen. destruct (onopen init); [|apply preserves_ret].
  apply preserves_bind; [by apply preserves_emit|].
  intros _. by apply preserves_invoke.
Qed.

Lemma preserves_call_onmessage I m :
  stable I -> preserves I (call_onmessage m).
Proof.
  intros HI. unfold call_onmessage.
  destruct (onmessage init); [|apply preserves_ret].
  apply preserves_bind; [by apply preserves_emit|].
  intros _. by apply preserves_invoke.
Qed.

Lemma preserves_call_onclose I : stable I -> preserves I call_onclose.
Proof.
  intros HI. unfold call_onclose. destruct (onclose init); [|apply preserves_ret].
  apply preserves_bind; [by apply preserves_emit|].
  intros _. by apply preserves_invoke.
Qed.

Lemma preserves_call_onerror I err :
  stable I -> preserves I (call_onerror err).
Proof.
  intros HI. unfold call_onerror. destruct (onerror init); [|apply preserves_ret].
  apply preserves_bind; [by apply preserves_emit|].
  intros _. by apply preserves_invoke.
Qed.

Lemma preserves_onHeadersReceived I res :
  stable I -> preserves I (onHeadersReceived res).
Proof.
  intros HI. unfold onHeadersReceived.
  apply preserves_bind; [apply preserves_gets|]. intros [|]; [apply preserves_ret|].
  apply preserves_try_catch; [by apply preserves_call_onopen|].
  intros err. apply preserves_bind; [by apply preserves_emit|].
  intros _. apply preserves_throw.
Qed.

Lemma preserves_retry_on_error I err :
  stable I -> (forall d, preserves I (scheduleRetry d)) ->
  preserves I (retry_on_error err).
Proof.
  intros HI Hs. unfold retry_on_error. apply preserves_bind.
  - apply preserves_try_catch; [by apply preserves_call_onerror|].
    intros _. apply preserves_ret.
  - intros [d|]; [apply Hs | apply preserves_ret].
Qed.

Lemma preserves_fail I err :
  stable I -> (forall d, preserves I (scheduleRetry d)) ->
  preserves I (fail err).
Proof.
  intros HI Hs. unfold fail.
  apply preserves_bind; [apply preserves_gets|]. intros [|]; [apply preserves_ret|].
  apply preserves_bind; [apply preserves_modify, (stable_requestTask I HI)|].
  intros _. by apply preserves_retry_on_error.
Qed.

Lemma preserves_process_line I line message :
  stable I -> (forall s w, I w -> I (with_lastEventId s w)) ->
  preserves I (process_line line message).
Proof.
  intros HI Hid. unfold process_line.
  destruct (_ || _).
  { apply preserves_bind; [|intros _; apply preserves_ret].
    destruct (p_data message); [|apply preserves_ret].
    apply preserves_bind; [by apply preserves_call_onmessage|]. intros _.
    destruct (p_id message) as [i|]; [|apply preserves_ret].
    destruct (truthy i); [|apply preserves_ret].
    apply preserves_modify. intros w. apply Hid. }
  repeat (match goal with |- context [if ?b then _ else _] => destruct b end;
          try apply preserves_ret).
Qed.

Lemma preserves_process_lines I lines :
  (forall line message, preserves I (process_line line message)) ->
  forall message, preserves I (process_lines lines message).
Proof.
  intros Hl. induction lines as [|line lines IH]; intros message; simpl.
  - apply preserves_ret.
  - apply preserves_bind; [apply Hl | apply IH].
Qed.

Lemma preserves_handleChunk I data :
  stable I -> (forall line message, preserves I (process_line line message)) ->
  preserves I (handleChunk data).
Proof.
  intros HI Hl. unfold handleChunk, feed. apply preserves_try_catch.
  - apply preserves_bind.
    { apply preserves_modify. intros w. apply (stable_buffer I HI). }
    intros _. apply preserves_bind; [apply preserves_gets|]. intros buf.
    apply preserves_bind; [apply preserves_modify, (stable_buffer I HI)|].
    intros _. by apply preserves_process_lines.
  - intros err. apply preserves_bind; [by apply preserves_emit|]. intros _.
    apply preserves_bind; [by apply preserves_call_onerror|]. intros _.
    apply preserves_ret.
Qed.

Lemma preserves_onChunkReceived I data :
  stable I -> (forall line message, preserves I (process_line line message)) ->
  preserves I (onChunkReceived data).
Proof.
  intros HI Hl. unfold onChunkReceived.
  apply preserves_bind; [apply preserves_gets|]. intros [|]; [apply preserves_ret|].
  by apply preserves_handleChunk.
Qed.


(** *** The retry budget *)

Lemma attempts_snoc (t : list (event Resp Val)) e :
  attempts (t ++ [e]) = (attempts t + if is_request e then 1 else 0)%nat.
Proof.
  unfold attempts. rewrite List.filter_app, length_app. simpl.
  by destruct (is_request e).
Qed.

Lemma within_budget_stable n : stable (within_budget (U:=U) (Resp:=Resp) (Val:=Val) n).
Proof.
  split; unfold within_budget, pending; simpl; try done.
  - intros w [H1 H2]. split; [|done]. destruct (retryTimer w); lia.
  - intros e w He [H1 H2]. rewrite attempts_snoc, He. split; [lia|done].
Qed.

Lemma within_budget_lastEventId n s w :
  within_budget n w -> within_budget n (with_lastEventId s w).
Proof. done. Qed.

Lemma within_budget_scheduleRetry n d :
  maxRetryCount init = Some n -> preserves (within_budget n) (scheduleRetry d).
Proof.
  intros Hmax w [H1 H2]. unfold scheduleRetry. rewrite Hmax. munfold. simpl.
  destruct (isAborted w); [done|].
  destruct (Z.leb_spec n (retryCount w)); simpl.
  - unfold within_budget, pending in *. simpl.
    rewrite attempts_snoc. simpl. split; [lia|done].
  - unfold within_budget, pending in *. simpl.
    rewrite attempts_snoc. simpl. destruct (retryTimer w); lia.
Qed.

Lemma within_budget_connect n w :
  maxRetryCount init = Some n ->
  retryTimer w = None ->
  Z.of_nat (attempts (trace w)) + 1 <= 1 + retryCount w ->
  retryCount w <= n ->
  within_budget n (snd (connect w)).
Proof.
  intros Hmax Ht H1 H2. unfold connect. munfold. simpl.
  destruct (isAborted w) eqn:Ha; simpl.
  { unfold within_budget, pending. rewrite Ht. lia. }
  set (h := if truthy (lastEventId w) then _ else _).
  destruct (Taro_request h (host w)) as [u [[]|v]] eqn:Hr; simpl.
  - unfold within_budget, pending. simpl. rewrite Ht, attempts_snoc. simpl. lia.
  - rewrite Ha.
    apply preserves_retry_on_error;
      [apply within_budget_stable | intros d; by apply within_budget_scheduleRetry |].
    unfold within_budget, pending. simpl. rewrite Ht, attempts_snoc. simpl. lia.
Qed.

Lemma within_budget_initial n u :
  maxRetryCount init = Some n -> 0 <= n ->
  within_budget n (fetchEventSource u).
Proof.
  intros Hmax Hn. unfold fetchEventSource.
  apply within_budget_connect; simpl; done || lia.
Qed.

Lemma within_budget_deliver n w s :
  maxRetryCount init = Some n -> s <> Completed ->
  within_budget n w -> within_budget n (deliver w s).
Proof.
  intros Hmax Hs Hw. unfold deliver.
  destruct (enabled s w) eqn:He; [|done]. unfold fire.
  pose proof (within_budget_stable n) as HI.
  destruct s as [res|data| |err| |]; simpl in *.
  - by apply preserves_onHeadersReceived.
  - apply preserves_onChunkReceived; [done| |done].
    intros line message. apply preserves_process_line; [done|].
    intros ??. apply within_budget_lastEventId.
  - done.
  - apply preserves_fail; [done| |done].
    intros d. by apply within_budget_scheduleRetry.
  - apply bool_decide_eq_true in He as [d Hd].
    unfold retryTimerCallback. munfold. simpl.
    destruct Hw as [H1 H2]. unfold pending in H1. rewrite Hd in H1.
    by apply within_budget_connect.
  - by apply preserves_abort.
Qed.

Lemma within_budget_run n sigs w :
  maxRetryCount init = Some n -> Completed ∉ sigs ->
  within_budget n w -> within_budget n (run sigs w).
Proof.
  intros Hmax. revert w. induction sigs as [|s sigs IH]; intros w Hs Hw; [done|].
  simpl. apply IH.
  - intros Hin. apply Hs. by right.
  - apply within_budget_deliver; [done| |done]. intros ->. apply Hs. by left.
Qed.


(** *** The stored event id *)



Lemma messages_app (t1 t2 : list (event Resp Val)) :
  messages (t1 ++ t2) = messages t1 ++ messages t2.
Proof.
  induction t1 as [|e t1 IH]; [done|]. destruct e; simpl; by rewrite ?IH.
Qed.



(** [i] is the stored id, [t0] the trace when it was stored. *)
Section Resume.
Variable i : jsstring.
Variable t0 : list (event Resp Val).
Hypothesis i_truthy : truthy i = true.









End Resume.

(** *** After [abort] *)

Lemma callbacks_snoc (t : list (event Resp Val)) e :
  is_callback e = false ->
  List.filter is_callback (t ++ [e]) = List.filter is_callback t.
Proof.
  intros He. rewrite List.filter_app. simpl. rewrite He. apply app_nil_r.
Qed.

Lemma abort_halts w :
  fst (abort w) = Normal tt /\
  halted (snd (abort w)) /\
  retryCount (snd (abort w)) = retryCount w /\
  lastEventId (snd (abort w)) = lastEventId w /\
  exists evs, trace (snd (abort w)) = trace w ++ evs /\
              Forall (fun e => is_callback e = false) evs.
Proof.
  unfold abort, halted. munfold. simpl.
  destruct (requestTask w) as [task|] eqn:Hq; simpl.
  - destruct (RequestTask_abort (host w)) as [u [[]|v]]; simpl;
      destruct (retryTimer w) eqn:Ht; simpl; rewrite <- ?app_assoc;
      repeat split; try done; eexists; (split; [reflexivity|]);
      by repeat constructor.
  - destruct (retryTimer w) eqn:Ht; simpl; repeat split; try done.
    + eexists. split; [reflexivity|]. by repeat constructor.
    + exists []. by rewrite app_nil_r.
Qed.

Lemma callbacks_quiet (t evs : list (event Resp Val)) :
  Forall (fun e => is_callback e = false) evs ->
  List.filter is_callback (t ++ evs) = List.filter is_callback t.
Proof.
  intros H. rewrite List.filter_app.
  replace (List.filter is_callback evs) with (@nil (event Resp Val));
    [apply app_nil_r|].
  induction H as [|e evs He _ IH]; [done|]. simpl. by rewrite He.
Qed.

Lemma messages_quiet (t evs : list (event Resp Val)) :
  Forall (fun e => is_callback e = false) evs ->
  messages (t ++ evs) = messages t.
Proof.
  intros H. rewrite messages_app.
  replace (messages evs) with (@nil EventSourceMessage); [apply app_nil_r|].
  induction H as [|e evs He _ IH]; [done|]. by destruct e.
Qed.

Lemma world_eta w :
  {| host := host w; requestTask := requestTask w; retryCount := retryCount w;
     retryTimer := retryTimer w; isAborted := isAborted w;
     lastEventId := lastEventId w; buffer := buffer w; trace := trace w |} = w.
Proof. by destruct w. Qed.

(** On a halted session every handler returns at its first test, and
    [abort] finds nothing left to cancel. *)
Lemma fire_halted s w : halted w -> fire s w = w.
Proof.
  intros (Ha & Ht & Hr & Hb).
  destruct w as [u task count timer aborted id buf t]. simpl in *. subst.
  by destruct s.
Qed.

Lemma deliver_halted s w : halted w -> deliver w s = w.
Proof.
  intros H. unfold deliver. destruct (enabled s w); [by apply fire_halted|done].
Qed.


(** *** Retry scheduling and the clean close *)

Lemma scheduleRetry_armed d w :
  can_retry w = true ->
  scheduleRetry d w =
    (Normal tt,
     with_retryTimer (Some d)
       (with_trace (trace w ++ [EvSetTimeout d])
          (with_retryCount (retryCount w + 1) w))).
Proof.
  unfold can_retry, scheduleRetry. intros H. munfold. simpl.
  apply andb_true_iff in H as [Ha Hb]. apply negb_true_iff in Ha.
  rewrite Ha. destruct (maxRetryCount init) as [max|]; [|done].
  apply negb_true_iff in Hb. by rewrite Hb.
Qed.

Lemma scheduleRetry_declined d w :
  can_retry w = false ->
  fst (scheduleRetry d w) = Normal tt /\
  retryCount (snd (scheduleRetry d w)) = retryCount w /\
  retryTimer (snd (scheduleRetry d w)) = retryTimer w /\
  List.filter is_callback (trace (snd (scheduleRetry d w))) =
    List.filter is_callback (trace w).
Proof.
  unfold can_retry, scheduleRetry. intros H. munfold. simpl.
  destruct (isAborted w); [done|]. simpl in H.
  destruct (maxRetryCount init) as [max|]; [|done].
  apply negb_false_iff in H. rewrite H. simpl.
  by rewrite callbacks_snoc.
Qed.

Lemma scheduleRetry_normal d w : fst (scheduleRetry d w) = Normal tt.
Proof.
  destruct (can_retry w) eqn:H.
  - by rewrite scheduleRetry_armed.
  - by apply scheduleRetry_declined.
Qed.

Lemma retry_on_error_normal err w : fst (retry_on_error err w) = Normal tt.
Proof.
  unfold retry_on_error. munfold.
  destruct (call_onerror err w) as [[[d|]|e] w']; simpl; try done.
  apply scheduleRetry_normal.
Qed.

(** [connect] never throws: the transport throws foreign values only, so
    the [FatalError] branch of its [catch] is never taken. *)
Lemma connect_normal w : fst (connect w) = Normal tt.
Proof.
  unfold connect. munfold. simpl. destruct (isAborted w) eqn:Ha; [done|].
  destruct (Taro_request _ (host w)) as [u [[]|v]]; simpl; [done|].
  rewrite Ha. apply retry_on_error_normal.
Qed.

(** An [onopen] that throws (and does not abort the session itself) leaves
    every variable of the session as it was: the [FatalError] goes to the
    transport that called the listener. *)
Lemma onopen_throw_not_fatal f res w u r v :
  isAborted w = false -> onopen init = Some f ->
  f res (host w) = (u, r) -> calls_abort r = false -> outcome r = inr v ->
  onHeadersReceived res w =
    (Abrupt (FatalError v),
     with_trace
       ((trace w ++ [EvOnOpen res])
          ++ [EvConsoleError "onopen error:" (Foreign v)])
       (with_host u w)).
Proof.
  intros Ha Hf Hr Hc Ho. unfold onHeadersReceived, call_onopen, invoke.
  munfold. simpl. rewrite Ha, Hf. simpl. rewrite Hr, Hc, Ho. done.
Qed.


(** The [success] callback on a session that is not aborted, step by step. *)
Lemma success_reconnects (w : World U Resp Val) :
  isAborted w = false -> openWhenHidden init = false ->
  (forall f, onclose init = Some f -> calls_abort (snd (f (host w))) = false) ->
  exists w2,
    success w = scheduleRetry DefaultRetryInterval w2 /\
    retryCount w2 = 0 /\ requestTask w2 = None /\ isAborted w2 = false /\
    trace w2 = trace w ++ onclose_events w /\
    (match maxRetryCount init with Some max => 0 < max | None => True end ->
     scheduleRetry DefaultRetryInterval w2 =
       (Normal tt,
        with_retryTimer (Some 1000)
          (with_trace (trace w2 ++ [EvSetTimeout 1000])
             (with_retryCount 1 w2)))).
Proof.
  intros Ha Hh Hf.
  assert (Hs : forall w2, retryCount w2 = 0 -> isAborted w2 = false ->
             match maxRetryCount init with Some max => 0 < max | None => True end ->
             scheduleRetry DefaultRetryInterval w2 =
               (Normal tt,
                with_retryTimer (Some 1000)
                  (with_trace (trace w2 ++ [EvSetTimeout 1000])
                     (with_retryCount 1 w2)))).
  { intros w2 Hc Ha2 Hm. rewrite scheduleRetry_armed.
    - by rewrite Hc.
    - unfold can_retry. rewrite Ha2, Hc. simpl.
      destruct (maxRetryCount init); [|done].
      apply negb_true_iff. lia. }
  unfold success, call_onclose, onclose_events, invoke. munfold. simpl.
  rewrite Ha. destruct (onclose init) as [f|]; simpl.
  - specialize (Hf f eq_refl). destruct (f (host w)) as [u r]. simpl in *.
    rewrite Hf. destruct (outcome r) as [[]|v]; simpl; rewrite Ha, Hh; simpl.
    + eexists. split; [reflexivity|]. simpl. repeat split; try done.
      intros Hm. by apply Hs.
    + eexists. split; [reflexivity|]. simpl. repeat split; try done.
      * by rewrite <- app_assoc.
      * intros Hm. by apply Hs.
  - rewrite Ha, Hh. simpl.
    exists (with_requestTask None (with_retryCount 0 w)).
    split; [reflexivity|].
    repeat split; try done; [simpl; by rewrite app_nil_r|].
    intros Hm. by apply Hs.
Qed.

(** *** The frame parser across calls *)

Lemma split_no_separator (sep : Z) (s : jsstring) :
  sep ∉ s -> split sep s = [s].
Proof.
  induction s as [|c s IH]; intros Hs; [done|]. simpl.
  destruct (Z.eqb_spec c sep) as [->|Hc].
  - exfalso. apply Hs. by left.
  - rewrite IH; [done|]. intros Hin. apply Hs. by right.
Qed.

(** Text without a line feed only grows the buffer: no line is processed,
    nothing is delivered. *)
Lemma feed_inside_line (text : jsstring) w :
  LF ∉ buffer w ++ text ->
  feed text w = (Normal tt, with_buffer (buffer w ++ text) w).
Proof.
  intros H. unfold feed. munfold. simpl.
  by rewrite (split_no_separator _ _ H).
Qed.

(** A split that falls inside the first line is harmless: the partial line
    is kept in [buffer] and completed by the next call. *)
Lemma feed_split_inside_line (t1 t2 : jsstring) w :
  LF ∉ buffer w ++ t1 ->
  feed t2 (snd (feed t1 w)) = feed (t1 ++ t2) w.
Proof.
  intros H. rewrite (feed_inside_line t1 w H). unfold feed. munfold. simpl.
  by rewrite app_assoc.
Qed.

(** The pending message does not survive the call: whatever the lines of a
    call have accumulated, the next call starts from the empty message. *)
Lemma feed_starts_from_empty_message (text : jsstring) w :
  feed text w =
    process_lines (removelast (split LF (buffer w ++ text))) empty_message
      (with_buffer (default [] (last (split LF (buffer w ++ text)))) w).
Proof. by destruct w. Qed.

(** When [onmessage] throws synchronously, the assignment of
    [lastEventId] that follows the call is skipped. *)
Lemma onmessage_throw_skips_id
    (f : EventSourceMessage -> U -> U * reaction Val unit) message d v w :
  onmessage init = Some f -> p_data message = Some d ->
  outcome (snd (f {| msg_id := p_id message; msg_event := p_event message;
                     msg_data := d |} (host w))) = inr v ->
  lastEventId (snd (process_line [] message w)) = lastEventId w.
Proof.
  intros Hf Hd Ho. unfold process_line. simpl. rewrite Hd.
  unfold call_onmessage, invoke. rewrite Hf. munfold. simpl.
  destruct (f _ (host w)) as [u r]. simpl in *. rewrite Ho.
  destruct (calls_abort r); simpl; [|done].
  by destruct (abort_halts (with_host u (with_trace (trace w ++ [EvOnMessage
       {| msg_id := p_id message; msg_event := p_event message;
          msg_data := d |}]) w))) as (_ & _ & _ & -> & _).
Qed.

(** *** Clean closes and the budget *)

(** A session with a request in flight that closes cleanly and whose timer
    then fires is again a session with a request in flight, one attempt
    later: with a positive budget, clean closes never use it up. *)
Lemma clean_close_cycle max w :
  maxRetryCount init = Some max -> 0 < max ->
  openWhenHidden init = false ->
  (forall f u, onclose init = Some f -> calls_abort (snd (f u)) = false) ->
  (forall h u, snd (Taro_request h u) = inl tt) ->
  isAborted w = false -> is_Some (requestTask w) -> retryTimer w = None ->
  let w' := run [Completed; TimerFired] w in
  isAborted w' = false /\ is_Some (requestTask w') /\ retryTimer w' = None /\
  attempts (trace w') = S (attempts (trace w)).
Proof.
  intros Hmax Hpos Hh Hf Hreq Ha Ht Hr. simpl.
  destruct (success_reconnects w Ha Hh) as (w2 & Hs & Hc & Hq & Ha2 & Htr & Harm).
  { intros f. apply Hf. }
  rewrite Hmax in Harm. specialize (Harm Hpos).
  assert (H1 : deliver w Completed =
               with_retryTimer (Some 1000)
                 (with_trace (trace w2 ++ [EvSetTimeout 1000])
                    (with_retryCount 1 w2))).
  { unfold deliver, enabled. rewrite bool_decide_eq_true_2 by done.
    unfold fire. simpl. by rewrite Hs, Harm. }
  rewrite H1. unfold deliver, enabled. simpl.
  unfold fire. simpl. unfold retryTimerCallback, connect. munfold. simpl.
  rewrite Ha2.
  match goal with
  | |- context [Taro_request ?h ?u] =>
    pose proof (Hreq h u) as Hok; destruct (Taro_request h u) as [u' r]
  end.
  simpl in Hok. subst r. simpl. repeat split; try done.
  rewrite !attempts_snoc, Htr. simpl.
  unfold attempts. rewrite List.filter_app, length_app.
  replace (List.filter is_request (onclose_events w))
    with (@nil (event Resp Val)).
  { simpl. lia. }
  unfold onclose_events. destruct (onclose init); [|done].
  simpl. by destruct (outcome _).
Qed.

Lemma run_app (l1 l2 : list (signal Resp Val)) w :
  run (l1 ++ l2) w = run l2 (run l1 w).
Proof. apply foldl_app. Qed.

(** So a stream that keeps closing cleanly is reconnected for ever,
    whatever the (positive) budget: [k] closes, [k] reconnects. *)
Lemma clean_closes_keep_reconnecting max (k : nat) w :
  maxRetryCount init = Some max -> 0 < max ->
  openWhenHidden init = false ->
  (forall f u, onclose init = Some f -> calls_abort (snd (f u)) = false) ->
  (forall h u, snd (Taro_request h u) = inl tt) ->
  isAborted w = false -> is_Some (requestTask w) -> retryTimer w = None ->
  attempts (trace (run (concat (replicate k [Completed; TimerFired])) w)) =
    (attempts (trace w) + k)%nat.
Proof.
  intros Hmax Hpos Hh Hf Hreq. revert w.
  induction k as [|k IH]; intros w Ha Ht Hr; simpl; [lia|].
  destruct (clean_close_cycle max w Hmax Hpos Hh Hf Hreq Ha Ht Hr)
    as (Ha' & Ht' & Hr' & Hn).
  change (run (concat (replicate k [Completed; TimerFired]))
            (run [Completed; TimerFired] w)) with
    (foldl deliver (deliver (deliver w Completed) TimerFired)
       (concat (replicate k [Completed; TimerFired]))) in IH.
  rewrite IH by done. simpl in Hn. rewrite Hn. lia.
Qed.

(** *** The claims about the session *)

(** C3 (amended): with [maxRetryCount = n], as long as no stream ends
    cleanly (a clean close resets the count), at most [n] retries follow
    the first connect attempt, so at most [1 + n] attempts are ever made
    (three for [n = 2]); and when the budget is exhausted [scheduleRetry]
    only logs a warning: no callback, no timer, no change of state. *)
Theorem retry_budget (n : Z) (u : U) (sigs : list (signal Resp Val)) :
  maxRetryCount init = Some n -> 0 <= n -> Completed ∉ sigs ->
  Z.of_nat (attempts (trace (run sigs (fetchEventSource u)))) <= 1 + n /\
  forall d w, isAborted w = false -> n <= retryCount w ->
    scheduleRetry d w =
      (Normal tt,
       with_trace (trace w ++ [EvConsoleWarn "Max retry count reached"]) w).
Proof.
  intros Hmax Hn Hs. split.
  - destruct (within_budget_run n sigs (fetchEventSource u) Hmax Hs) as [H1 H2].
    { by apply within_budget_initial. }
    unfold pending in H1. destruct (retryTimer _); lia.
  - intros d w Ha Hc. unfold scheduleRetry. munfold. simpl.
    rewrite Ha, Hmax. by replace (n <=? retryCount w) with true by lia.
Qed.

(** C4 (amended): the headers/[onopen] step never changes [retryCount]; the
    count is reset to 0 by the [success] callback, that is on a clean end
    of the stream, before [onclose] and the rescheduling; and
    [scheduleRetry] adds exactly one when it arms a timer and leaves the
    count alone when it declines. *)
Theorem retryCount_transitions :
  (forall res w, retryCount (fire (HeadersReceived res) w) = retryCount w) /\
  (forall w, isAborted w = false ->
     exists w1, retryCount w1 = 0 /\
       (fire Completed w = w1 \/
        fire Completed w = snd (scheduleRetry DefaultRetryInterval w1))) /\
  (forall d w, can_retry w = true ->
     retryCount (snd (scheduleRetry d w)) = retryCount w + 1 /\
     retryTimer (snd (scheduleRetry d w)) = Some d) /\
  (forall d w, can_retry w = false ->
     retryCount (snd (scheduleRetry d w)) = retryCount w /\
     retryTimer (snd (scheduleRetry d w)) = retryTimer w).
Proof.
  split; [|split; [|split]].
  - intros res w. unfold fire. simpl.
    apply (preserves_onHeadersReceived
             (fun w' => retryCount w' = retryCount w)); [by split|done].
  - intros w Ha. unfold fire. simpl. unfold success. munfold. simpl.
    rewrite Ha.
    set (w0 := with_requestTask None (with_retryCount 0 w)).
    assert (H0 : retryCount (snd (call_onclose w0)) = 0).
    { apply (preserves_call_onclose (fun w' => retryCount w' = 0));
        [by split|done]. }
    destruct (call_onclose w0) as [[[]|err] w1]; simpl in *.
    + exists w1. split; [done|].
      destruct (negb (isAborted w1) && _); [by right | by left].
    + exists (with_trace (trace w1 ++ [EvConsoleError "onclose error:" err]) w1).
      split; [done|]. simpl.
      destruct (negb (isAborted w1) && _); [by right | by left].
  - intros d w H. by rewrite scheduleRetry_armed.
  - intros d w H. by destruct (scheduleRetry_declined d w H) as (_ & ? & ? & _).
Qed.

(** C5: once [abort()] has run, the aborted flag is set, [abort] itself has
    called no user callback, and every later signal (headers, chunk,
    completion, failure, timer, or [abort] again), delivered in any order
    and any number of times, leaves the whole world as it is: no callback,
    no request, no timer, the flag still set. *)
Theorem abort_is_final (w : World U Resp Val) (sigs : list (signal Resp Val)) :
  isAborted (fire AbortCalled w) = true /\
  List.filter is_callback (trace (fire AbortCalled w)) =
    List.filter is_callback (trace w) /\
  foldl (fun w' s => fire s w') (fire AbortCalled w) sigs = fire AbortCalled w /\
  run sigs (fire AbortCalled w) = fire AbortCalled w.
Proof.
  change (fire AbortCalled w) with (snd (abort w)).
  destruct (abort_halts w) as (_ & Hh & _ & _ & evs & Ht & Hq).
  split; [apply Hh|]. split; [rewrite Ht; by apply callbacks_quiet|].
  set (wa := snd (abort w)) in *. clearbody wa. split.
  - induction sigs as [|s sigs IH]; [done|]. simpl.
    by rewrite (fire_halted s wa Hh).
  - induction sigs as [|s sigs IH]; [done|]. simpl.
    by rewrite (deliver_halted s wa Hh).
Qed.


(** C8 (amended): on a clean end of the stream, with [openWhenHidden]
    false, the session not aborted and [onclose] not aborting it either,
    the controller resets [retryCount] to 0, calls [onclose] once if there
    is one (what it throws is logged, nothing is propagated), and then
    calls [scheduleRetry] with 1000 ms; a reconnect is armed, making the
    count 1, provided [maxRetryCount] is unset or positive. *)
Theorem clean_close_reconnects (w : World U Resp Val) :
  isAborted w = false -> openWhenHidden init = false ->
  (forall f, onclose init = Some f -> calls_abort (snd (f (host w))) = false) ->
  exists w2,
    success w = scheduleRetry DefaultRetryInterval w2 /\
    retryCount w2 = 0 /\ requestTask w2 = None /\ isAborted w2 = false /\
    trace w2 = trace w ++ onclose_events w /\
    (match maxRetryCount init with Some max => 0 < max | None => True end ->
     scheduleRetry DefaultRetryInterval w2 =
       (Normal tt,
        with_retryTimer (Some 1000)
          (with_trace (trace w2 ++ [EvSetTimeout 1000])
             (with_retryCount 1 w2)))).
Proof. apply success_reconnects. Qed.

(** C10: a line that is exactly ["data"] appends a bare line feed to the
    data of the pending message; so the text ["data\n\n"], fed to a parser
    with an empty buffer, delivers one message whose data is ["\n"]. *)
Theorem bare_data_line
    (f : EventSourceMessage -> U -> U * reaction Val unit) :
  onmessage init = Some f ->
  (forall message w,
     process_line (js "data") message w =
       (Normal {| p_id := p_id message; p_event := p_event message;
                  p_data := Some (default [] (p_data message) ++ [LF]) |},
        w)) /\
  (forall w, buffer w = [] ->
     feed (js "data" ++ [LF; LF]) w =
       call_onmessage
         {| msg_id := None; msg_event := None; msg_data := [LF] |} w) /\
  (forall w, buffer w = [] ->
     messages (trace (snd (feed (js "data" ++ [LF; LF]) w))) =
       messages (trace w)
         ++ [{| msg_id := None; msg_event := None; msg_data := [LF] |}]).
Proof.
  intros Hf.
  assert (Hfeed : forall w, buffer w = [] ->
     feed (js "data" ++ [LF; LF]) w =
       call_onmessage
         {| msg_id := None; msg_event := None; msg_data := [LF] |} w).
  { intros w Hb. destruct w as [u task count timer aborted id buf t].
    simpl in Hb. subst buf.
    destruct (f {| msg_id := None; msg_event := None; msg_data := [LF] |} u)
      as [u' [ca [[]|v]]] eqn:Hr; vm_compute in Hr;
      unfold feed, process_lines, process_line, call_onmessage;
      rewrite Hf; vm_compute; rewrite Hr; destruct ca; reflexivity. }
  split; [done|]. split; [done|].
  intros w Hb. rewrite (Hfeed w Hb). unfold call_onmessage, invoke.
  rewrite Hf. munfold. simpl. destruct (f _ (host w)) as [u r]. simpl.
  destruct (calls_abort r); simpl.
  - destruct (abort_halts
                (with_host u (with_trace (trace w ++ [EvOnMessage
                   {| msg_id := None; msg_event := None; msg_data := [LF] |}]) w)))
      as (_ & _ & _ & _ & evs & Ht & Hq).
    rewrite Ht. simpl. rewrite (messages_quiet _ _ Hq). by rewrite messages_app.
  - by rewrite messages_app.
Qed.

End SessionProperties.

(** ** The claims on concrete sessions *)

(** C3 (as stated, refuted): with [maxRetryCount = 2], after two attempts
    that failed (or two that closed cleanly), the timer fires and a third
    connect attempt is made. *)
Lemma third_attempt_after_two_failures :
  attempts (trace (Scenario.session (Scenario.config (Some 2))
    [Failed tt; TimerFired; Failed tt; TimerFired])) = 3%nat /\
  attempts (trace (Scenario.session (Scenario.config (Some 2))
    [Completed; TimerFired; Completed; TimerFired])) = 3%nat.
Proof. split; vm_compute; reflexivity. Qed.

Lemma retry_budget_witness :
  maxRetryCount (@init _ _ _ (Scenario.env (Scenario.config (Some 2)))) = Some 2 /\
  Z.of_nat (attempts (trace (Scenario.session (Scenario.config (Some 2))
    [Failed tt; TimerFired; Failed tt; TimerFired; Failed tt; TimerFired;
     Failed tt; TimerFired]))) <= 1 + 2.
Proof.
  split; [reflexivity|].
  apply (@retry_budget unit unit unit
           (Scenario.env (Scenario.config (Some 2))) 2 tt
           [Failed tt; TimerFired; Failed tt; TimerFired; Failed tt;
            TimerFired; Failed tt; TimerFired]).
  - reflexivity.
  - lia.
  - intros H. repeat (apply elem_of_cons in H as [H|H]; [discriminate H|]).
    by apply elem_of_nil in H.
Defined.

(** C4 (as stated, refuted): a session that failed once and reconnected has
    [retryCount = 1]; the headers arrive and [onopen] returns, and the
    count is still 1. *)
Lemma open_does_not_reset_retryCount :
  retryCount (Scenario.session (Scenario.config None)
    [Failed tt; TimerFired; HeadersReceived tt]) = 1 /\
  trace (Scenario.session (Scenario.config None)
    [Failed tt; TimerFired; HeadersReceived tt]) =
    [EvRequest ∅; EvOnError (Foreign tt); EvSetTimeout 1000; EvRequest ∅;
     EvOnOpen tt].
Proof. split; vm_compute; reflexivity. Qed.

Lemma retryCount_transitions_witness :
  retryCount
    (@fire _ _ _ (Scenario.env (Scenario.config None)) (HeadersReceived tt)
       (Scenario.session (Scenario.config None) [Failed tt; TimerFired])) =
  retryCount (Scenario.session (Scenario.config None) [Failed tt; TimerFired]).
Proof.
  apply (proj1 (@retryCount_transitions unit unit unit
                  (Scenario.env (Scenario.config None)))).
Defined.

(** C6 (the code at the failing input): [onopen] throws when the headers
    arrive.  The listener logs and throws a [FatalError] to the transport;
    the session is not aborted, and when the transport then reports a
    failure, [onerror] is asked and the connection is retried. *)
Theorem onopen_error_is_retried :
  fst (@onHeadersReceived _ _ _ (Scenario.env Scenario.config_onopen_throws) tt
         (Scenario.session Scenario.config_onopen_throws [])) =
    Abrupt (FatalError tt) /\
  isAborted (Scenario.session Scenario.config_onopen_throws
    [HeadersReceived tt]) = false /\
  isAborted (Scenario.session Scenario.config_onopen_throws
    [HeadersReceived tt; Failed tt; TimerFired]) = false /\
  trace (Scenario.session Scenario.config_onopen_throws
    [HeadersReceived tt; Failed tt; TimerFired]) =
    [EvRequest ∅; EvOnOpen tt; EvConsoleError "onopen error:" (Foreign tt);
     EvOnError (Foreign tt); EvSetTimeout 1000; EvRequest ∅].
Proof. repeat split; vm_compute; reflexivity. Qed.


(** The same session, evaluated: both reconnects carry the header. *)
Lemma last_event_id_example :
  requests (trace (Scenario.session (Scenario.config None)
    [ChunkReceived (js "id: 42" ++ [LF] ++ js "data: x" ++ [LF; LF]);
     Completed; TimerFired;
     ChunkReceived (js "data: y" ++ [LF; LF]); Failed tt; TimerFired])) =
  [∅; <[LastEventId := js "42"]> ∅; <[LastEventId := js "42"]> ∅].
Proof. vm_compute. reflexivity. Qed.

(** C8 (as stated, refuted): with [maxRetryCount = 0] a clean close calls
    [onclose] and then only logs that the budget is used up: no reconnect
    is scheduled, and none happens. *)
Lemma clean_close_without_budget :
  trace (Scenario.session (Scenario.config (Some 0)) [Completed]) =
    [EvRequest ∅; EvOnClose; EvConsoleWarn "Max retry count reached"] /\
  retryTimer (Scenario.session (Scenario.config (Some 0)) [Completed]) = None /\
  attempts (trace (Scenario.session (Scenario.config (Some 0))
    [Completed; TimerFired])) = 1%nat.
Proof. repeat split; vm_compute; reflexivity. Qed.

Lemma clean_close_reconnects_witness :
  exists w2,
    @success _ _ _ (Scenario.env (Scenario.config None))
      (Scenario.session (Scenario.config None) []) =
    @scheduleRetry _ _ _ (Scenario.env (Scenario.config None))
      DefaultRetryInterval w2 /\
    retryCount w2 = 0 /\ requestTask w2 = None /\ isAborted w2 = false /\
    trace w2 = [EvRequest ∅; EvOnClose] /\
    (True ->
     @scheduleRetry _ _ _ (Scenario.env (Scenario.config None))
       DefaultRetryInterval w2 =
       (Normal tt,
        with_retryTimer (Some 1000)
          (with_trace (trace w2 ++ [EvSetTimeout 1000])
             (with_retryCount 1 w2)))).
Proof.
  apply (@clean_close_reconnects unit unit unit
           (Scenario.env (Scenario.config None))
           (Scenario.session (Scenario.config None) [])).
  - reflexivity.
  - reflexivity.
  - intros f Hf. injection Hf as <-. reflexivity.
Defined.

Lemma bare_data_line_witness :
  messages (trace (snd (@feed _ _ _ (Scenario.env (Scenario.config None))
                          (js "data" ++ [LF; LF]) (initial tt)))) =
  [{| msg_id := None; msg_event := None; msg_data := [LF] |}].
Proof.
  apply (proj2 (proj2
    (@bare_data_line unit unit unit (Scenario.env (Scenario.config None))
       (fun _ u => (u, Scenario.returns tt)) eq_refl)) (initial tt)).
  reflexivity.
Defined.

(** ** More on the decoder *)

Lemma land_low (k x hi : Z) :
  0 <= k -> 0 <= x < 2 ^ k ->
  Z.land (hi * 2 ^ k + x) (Z.ones k) = x.
Proof.
  intros Hk Hx. rewrite Z.land_ones by done.
  rewrite Z.add_comm, Z.mod_add by lia. by apply Z.mod_small.
Qed.

Lemma land_disjoint (k hi lo : Z) :
  0 <= k -> 0 <= lo < 2 ^ k -> Z.land (hi * 2 ^ k) lo = 0.
Proof.
  intros Hk Hlo. apply Z.bits_inj'. intros n Hn.
  rewrite Z.land_spec, Z.bits_0.
  destruct (Z.lt_ge_cases n k) as [Hlt|Hge].
  - by rewrite Z.mul_pow2_bits_low.
  - rewrite <- (Z.mod_small lo (2 ^ k)) by done.
    rewrite Z.mod_pow2_bits_high by lia. apply andb_false_r.
Qed.

Lemma lor_add (k m hi lo : Z) :
  0 <= k -> m = 2 ^ k -> 0 <= lo < m -> Z.lor (hi * m) lo = hi * m + lo.
Proof.
  intros Hk -> Hlo.
  pose proof (land_disjoint k hi lo Hk Hlo) as Hd.
  rewrite (Z.add_nocarry_lxor _ _ Hd). symmetry. by apply Z.lxor_lor.
Qed.

Lemma codepoint2_fields (a b : Z) :
  0 <= a < 32 -> 0 <= b < 64 ->
  codepoint2 (0xc0 + a) (0x80 + b) = a * 64 + b.
Proof.
  intros Ha Hb. unfold codepoint2.
  replace (Z.land (0xc0 + a) 0x1f) with a
    by (symmetry; apply (land_low 5 a 6); lia).
  replace (Z.land (0x80 + b) 0x3f) with b
    by (symmetry; apply (land_low 6 b 2); lia).
  rewrite Z.shiftl_mul_pow2 by lia. change (2 ^ 6) with 64.
  apply (lor_add 6); side.
Qed.

Lemma codepoint3_fields (a b c : Z) :
  0 <= a < 16 -> 0 <= b < 64 -> 0 <= c < 64 ->
  codepoint3 (0xe0 + a) (0x80 + b) (0x80 + c) = a * 4096 + b * 64 + c.
Proof.
  intros Ha Hb Hc. unfold codepoint3.
  replace (Z.land (0xe0 + a) 0x0f) with a
    by (symmetry; apply (land_low 4 a 14); lia).
  replace (Z.land (0x80 + b) 0x3f) with b
    by (symmetry; apply (land_low 6 b 2); lia).
  replace (Z.land (0x80 + c) 0x3f) with c
    by (symmetry; apply (land_low 6 c 2); lia).
  rewrite !Z.shiftl_mul_pow2 by lia.
  change (2 ^ 12) with 4096. change (2 ^ 6) with 64.
  rewrite (lor_add 12 4096 a (b * 64)) by side.
  replace (a * 4096 + b * 64) with ((a * 64 + b) * 64) by lia.
  rewrite (lor_add 6 64 (a * 64 + b) c) by side. lia.
Qed.

Lemma codepoint4_fields (a b c d : Z) :
  0 <= a < 8 -> 0 <= b < 64 -> 0 <= c < 64 -> 0 <= d < 64 ->
  codepoint4 (0xf0 + a) (0x80 + b) (0x80 + c) (0x80 + d) =
    a * 262144 + b * 4096 + c * 64 + d.
Proof.
  intros Ha Hb Hc Hd. unfold codepoint4.
  replace (Z.land (0xf0 + a) 0x07) with a
    by (symmetry; apply (land_low 3 a 30); lia).
  replace (Z.land (0x80 + b) 0x3f) with b
    by (symmetry; apply (land_low 6 b 2); lia).
  replace (Z.land (0x80 + c) 0x3f) with c
    by (symmetry; apply (land_low 6 c 2); lia).
  replace (Z.land (0x80 + d) 0x3f) with d
    by (symmetry; apply (land_low 6 d 2); lia).
  rewrite !Z.shiftl_mul_pow2 by lia.
  change (2 ^ 18) with 262144. change (2 ^ 12) with 4096.
  change (2 ^ 6) with 64.
  rewrite (lor_add 18 262144 a (b * 4096)) by side.
  replace (a * 262144 + b * 4096) with ((a * 64 + b) * 4096) by lia.
  rewrite (lor_add 12 4096 (a * 64 + b) (c * 64)) by side.
  replace ((a * 64 + b) * 4096 + c * 64)
    with (((a * 64 + b) * 64 + c) * 64) by lia.
  rewrite (lor_add 6 64 ((a * 64 + b) * 64 + c) d) by side. lia.
Qed.

Lemma fromCharCode_unit (c : Z) : 0 <= c < 65536 -> fromCharCode c = c.
Proof. intros H. by apply Z.mod_small. Qed.

(** One scalar value: its UTF-8 encoding is well formed and decodes to its
    UTF-16 encoding. *)
Lemma utf8_encode_valid (cp : Z) :
  is_scalar cp = true -> valid_utf8 (utf8_encode cp) = true.
Proof.
  unfold is_scalar, utf8_encode, in_range. intros Hs.
  destruct (Z.ltb_spec cp 128) as [H1|H1].
  { cbn [valid_utf8]. unfold in_range.
    replace ((0 <=? cp) && (cp <=? 127)) with true by lia. done. }
  destruct (Z.ltb_spec cp 2048) as [H2|H2].
  { cbn [valid_utf8]. unfold in_range.
    pose proof (Z.div_mod cp 64 ltac:(lia)).
    pose proof (Z.mod_pos_bound cp 64 ltac:(lia)).
    replace ((0 <=? 192 + cp / 64) && (192 + cp / 64 <=? 127)) with false by lia.
    replace ((194 <=? 192 + cp / 64) && (192 + cp / 64 <=? 223)) with true by lia.
    replace ((128 <=? 128 + cp mod 64) && (128 + cp mod 64 <=? 191))
      with true by lia.
    done. }
  destruct (Z.ltb_spec cp 65536) as [H3|H3].
  { cbn [valid_utf8]. unfold in_range.
    pose proof (Z.div_mod cp 4096 ltac:(lia)).
    pose proof (Z.mod_pos_bound cp 4096 ltac:(lia)).
    pose proof (Z.div_mod cp 64 ltac:(lia)).
    pose proof (Z.mod_pos_bound cp 64 ltac:(lia)).
    pose proof (Z.div_mod (cp / 64) 64 ltac:(lia)).
    pose proof (Z.mod_pos_bound (cp / 64) 64 ltac:(lia)).
    assert (cp / 64 / 64 = cp / 4096) by (rewrite Z.div_div by lia; done).
    replace ((0 <=? 224 + cp / 4096) && (224 + cp / 4096 <=? 127))
      with false by lia.
    replace ((194 <=? 224 + cp / 4096) && (224 + cp / 4096 <=? 223))
      with false by lia.
    replace ((224 <=? 224 + cp / 4096) && (224 + cp / 4096 <=? 239))
      with true by lia.
    replace ((128 <=? 128 + cp mod 64) && (128 + cp mod 64 <=? 191))
      with true by lia.
    destruct (Z.eqb_spec (224 + cp / 4096) 224);
      [|destruct (Z.eqb_spec (224 + cp / 4096) 237)].
    - replace ((160 <=? 128 + (cp / 64) mod 64)
               && (128 + (cp / 64) mod 64 <=? 191)) with true by lia. done.
    - replace ((128 <=? 128 + (cp / 64) mod 64)
               && (128 + (cp / 64) mod 64 <=? 159)) with true by lia. done.
    - replace ((128 <=? 128 + (cp / 64) mod 64)
               && (128 + (cp / 64) mod 64 <=? 191)) with true by lia. done. }
  cbn [valid_utf8]. unfold in_range.
  pose proof (Z.div_mod cp 262144 ltac:(lia)).
  pose proof (Z.mod_pos_bound cp 262144 ltac:(lia)).
  pose proof (Z.div_mod cp 4096 ltac:(lia)).
  pose proof (Z.mod_pos_bound cp 4096 ltac:(lia)).
  pose proof (Z.div_mod (cp / 4096) 64 ltac:(lia)).
  pose proof (Z.mod_pos_bound (cp / 4096) 64 ltac:(lia)).
  pose proof (Z.mod_pos_bound (cp / 64) 64 ltac:(lia)).
  pose proof (Z.mod_pos_bound cp 64 ltac:(lia)).
  assert (cp / 4096 / 64 = cp / 262144) by (rewrite Z.div_div by lia; done).
  replace ((0 <=? 240 + cp / 262144) && (240 + cp / 262144 <=? 127))
    with false by lia.
  replace ((194 <=? 240 + cp / 262144) && (240 + cp / 262144 <=? 223))
    with false by lia.
  replace ((224 <=? 240 + cp / 262144) && (240 + cp / 262144 <=? 239))
    with false by lia.
  replace ((240 <=? 240 + cp / 262144) && (240 + cp / 262144 <=? 244))
    with true by lia.
  replace ((128 <=? 128 + (cp / 64) mod 64)
           && (128 + (cp / 64) mod 64 <=? 191)) with true by lia.
  replace ((128 <=? 128 + cp mod 64) && (128 + cp mod 64 <=? 191))
    with true by lia.
  destruct (Z.eqb_spec (240 + cp / 262144) 240);
    [|destruct (Z.eqb_spec (240 + cp / 262144) 244)].
  - replace ((144 <=? 128 + (cp / 4096) mod 64)
             && (128 + (cp / 4096) mod 64 <=? 191)) with true by lia. done.
  - replace ((128 <=? 128 + (cp / 4096) mod 64)
             && (128 + (cp / 4096) mod 64 <=? 143)) with true by lia. done.
  - replace ((128 <=? 128 + (cp / 4096) mod 64)
             && (128 + (cp / 4096) mod 64 <=? 191)) with true by lia. done.
Qed.

Lemma continuation_field (x : Z) :
  0 <= x < 64 -> not_continuation (0x80 + x) = false.
Proof. intros H. apply continuation_range. unfold in_range. lia. Qed.

Lemma utf8_encode_decodes (cp : Z) :
  is_scalar cp = true -> decode_from (utf8_encode cp) = utf16_encode cp.
Proof.
  unfold is_scalar, utf8_encode, utf16_encode, in_range. intros Hs.
  destruct (Z.ltb_spec cp 128) as [H1|H1].
  { cbn [decode_from]. replace (cp <? 128) with true by lia.
    replace (cp <? 65536) with true by lia.
    by rewrite fromCharCode_unit by lia. }
  destruct (Z.ltb_spec cp 2048) as [H2|H2].
  { pose proof (Z.div_mod cp 64 ltac:(lia)) as Hdm.
    pose proof (Z.mod_pos_bound cp 64 ltac:(lia)) as Hb.
    set (a := cp / 64) in *. set (b := cp mod 64) in *.
    cbn [decode_from].
    replace (192 + a <? 128) with false by lia.
    replace ((194 <=? 192 + a) && (192 + a <=? 223)) with true by lia.
    rewrite continuation_field by done.
    rewrite codepoint2_fields by lia.
    replace (cp <? 65536) with true by lia.
    rewrite fromCharCode_unit by lia. f_equal. lia. }
  destruct (Z.ltb_spec cp 65536) as [H3|H3].
  { pose proof (Z.div_mod cp 64 ltac:(lia)) as Hdm.
    pose proof (Z.mod_pos_bound cp 64 ltac:(lia)) as Hc.
    pose proof (Z.div_mod (cp / 64) 64 ltac:(lia)) as Hdm2.
    pose proof (Z.mod_pos_bound (cp / 64) 64 ltac:(lia)) as Hb.
    assert (Hq : cp / 64 / 64 = cp / 4096) by (rewrite Z.div_div by lia; done).
    rewrite Hq in Hdm2.
    set (a := cp / 4096) in *. set (b := (cp / 64) mod 64) in *.
    set (c := cp mod 64) in *.
    cbn [decode_from].
    replace (224 + a <? 128) with false by lia.
    replace ((194 <=? 224 + a) && (224 + a <=? 223)) with false by lia.
    replace ((224 <=? 224 + a) && (224 + a <=? 239)) with true by lia.
    rewrite !continuation_field by done. cbn [orb].
    rewrite codepoint3_fields by lia.
    rewrite fromCharCode_unit by lia. f_equal. lia. }
  pose proof (Z.div_mod cp 64 ltac:(lia)) as Hdm.
  pose proof (Z.mod_pos_bound cp 64 ltac:(lia)) as Hd.
  pose proof (Z.div_mod (cp / 64) 64 ltac:(lia)) as Hdm2.
  pose proof (Z.mod_pos_bound (cp / 64) 64 ltac:(lia)) as Hc.
  assert (Hq : cp / 64 / 64 = cp / 4096) by (rewrite Z.div_div by lia; done).
  rewrite Hq in Hdm2.
  pose proof (Z.div_mod (cp / 4096) 64 ltac:(lia)) as Hdm3.
  pose proof (Z.mod_pos_bound (cp / 4096) 64 ltac:(lia)) as Hb.
  assert (Hq2 : cp / 4096 / 64 = cp / 262144)
    by (rewrite Z.div_div by lia; done).
  rewrite Hq2 in Hdm3.
  set (a := cp / 262144) in *. set (b := (cp / 4096) mod 64) in *.
  set (c := (cp / 64) mod 64) in *. set (d := cp mod 64) in *.
  assert (Hcp : cp = a * 262144 + b * 4096 + c * 64 + d) by lia.
  cbn [decode_from].
  replace (240 + a <? 128) with false by lia.
  replace ((194 <=? 240 + a) && (240 + a <=? 223)) with false by lia.
  replace ((224 <=? 240 + a) && (240 + a <=? 239)) with false by lia.
  replace ((240 <=? 240 + a) && (240 + a <=? 244)) with true by lia.
  rewrite !continuation_field by done. cbn [orb].
  rewrite codepoint4_fields by lia. rewrite <- Hcp. rewrite app_nil_r.
  unfold units4. replace (65535 <? cp) with true by lia.
  rewrite Z.shiftr_div_pow2 by lia. change (2 ^ 10) with 1024.
  change 1023 with (Z.ones 10). rewrite Z.land_ones by lia.
  change (2 ^ 10) with 1024.
  pose proof (Z.div_mod (cp - 65536) 1024 ltac:(lia)).
  pose proof (Z.mod_pos_bound (cp - 65536) 1024 ltac:(lia)).
  rewrite !fromCharCode_unit by lia. done.
Qed.

(** Well-formed text: the encodings of scalar values, one after the
    other. *)
Lemma utf8_text_valid (cps : list Z) :
  Forall (fun cp => is_scalar cp = true) cps ->
  valid_utf8 (concat (List.map utf8_encode cps)) = true.
Proof.
  induction 1 as [|cp cps Hcp _ IH]; [done|]. simpl.
  rewrite valid_utf8_app; [done|]. by apply utf8_encode_valid.
Qed.

(** X1: the decoder is right on well-formed input: the UTF-8 encoding of a
    sequence of Unicode scalar values decodes to its UTF-16 encoding, with
    a surrogate pair for each value above U+FFFF. *)
Theorem decodes_utf8_to_utf16 (cps : list Z) :
  Forall (fun cp => is_scalar cp = true) cps ->
  uint8ArrayToUtf8 (concat (List.map utf8_encode cps)) =
    concat (List.map utf16_encode cps).
Proof.
  rewrite uint8ArrayToUtf8_from.
  induction 1 as [|cp cps Hcp _ IH]; [done|]. simpl.
  rewrite decode_from_app by (by apply utf8_encode_valid).
  by rewrite utf8_encode_decodes, IH.
Qed.

Lemma decodes_utf8_to_utf16_witness :
  uint8ArrayToUtf8
    (concat (List.map utf8_encode [0x41; 0xe9; 0x20ac; 0x1f600])) =
  concat (List.map utf16_encode [0x41; 0xe9; 0x20ac; 0x1f600]) /\
  concat (List.map utf8_encode [0x41; 0xe9; 0x20ac; 0x1f600]) =
    [0x41; 0xc3; 0xa9; 0xe2; 0x82; 0xac; 0xf0; 0x9f; 0x98; 0x80] /\
  concat (List.map utf16_encode [0x41; 0xe9; 0x20ac; 0x1f600]) =
    [0x41; 0xe9; 0x20ac; 0xd83d; 0xde00].
Proof.
  split; [|split; reflexivity].
  apply decodes_utf8_to_utf16.
  repeat (apply Forall_cons; split; [reflexivity|]). apply Forall_nil_2.
Defined.

(** X2: bytes below 0x80 decode to themselves. *)
Theorem decodes_ascii (bytes : list Z) :
  Forall (fun b => 0 <= b < 0x80) bytes -> uint8ArrayToUtf8 bytes = bytes.
Proof.
  rewrite uint8ArrayToUtf8_from.
  induction 1 as [|b bytes Hb _ IH]; [done|]. cbn [decode_from].
  replace (b <? 128) with true by lia.
  by rewrite fromCharCode_unit, IH by lia.
Qed.

Lemma decodes_ascii_witness :
  uint8ArrayToUtf8 [0x64; 0x61; 0x74; 0x61; 0x3a; 0x20; 0x68; 0x69; 0x0a] =
    [0x64; 0x61; 0x74; 0x61; 0x3a; 0x20; 0x68; 0x69; 0x0a].
Proof.
  apply decodes_ascii.
  repeat (apply Forall_cons; split; [lia|]). apply Forall_nil_2.
Defined.

(** X3: the decoder never produces more code units than it was given
    bytes. *)
Theorem decoded_length_bound (bytes : list Z) :
  (length (uint8ArrayToUtf8 bytes) <= length bytes)%nat.
Proof.
  rewrite uint8ArrayToUtf8_from.
  induction bytes as [bytes IH] using valid_utf8_length_ind.
  destruct bytes as [|b r1]; [done|]. cbn [decode_from].
  destruct (b <? 128).
  { simpl. specialize (IH r1 ltac:(simpl; lia)). lia. }
  destruct ((194 <=? b) && (b <=? 223)).
  { destruct r1 as [|b2 r2]; [simpl; lia|].
    destruct (not_continuation b2); [simpl; lia|].
    simpl. specialize (IH r2 ltac:(simpl; lia)). lia. }
  destruct ((224 <=? b) && (b <=? 239)).
  { destruct r1 as [|b2 [|b3 r3]]; [simpl; lia..|].
    destruct (_ || _); [simpl; lia|].
    simpl. specialize (IH r3 ltac:(simpl; lia)). lia. }
  destruct ((240 <=? b) && (b <=? 244)).
  { destruct r1 as [|b2 [|b3 [|b4 r4]]]; [simpl; lia..|].
    destruct (_ || _); [simpl; lia|].
    rewrite length_app. specialize (IH r4 ltac:(simpl; lia)).
    unfold units4. destruct (65535 <? _); simpl; lia. }
  specialize (IH r1 ltac:(simpl; lia)). simpl. lia.
Qed.

(** X4: a chunk that ends inside a multi-byte sequence loses that sequence
    without notice: after well-formed bytes, a truncated tail decodes to
    nothing. *)
Theorem truncated_tail_dropped (pre tail : list Z) :
  valid_utf8 pre = true -> truncated tail = true ->
  uint8ArrayToUtf8 (pre ++ tail) = uint8ArrayToUtf8 pre.
Proof.
  intros Hv Ht. rewrite uint8ArrayToUtf8_app by done.
  rewrite <- (app_nil_r (uint8ArrayToUtf8 pre)) at 2. f_equal.
  rewrite uint8ArrayToUtf8_from. unfold truncated, in_range in Ht.
  destruct tail as [|b [|b2 [|b3 [|b4 r]]]]; try done;
    cbn [decode_from]; replace (b <? 128) with false by lia.
  - destruct ((194 <=? b) && (b <=? 223)) eqn:E1; [done|].
    destruct ((224 <=? b) && (b <=? 239)) eqn:E2; [done|].
    destruct ((240 <=? b) && (b <=? 244)) eqn:E3; [done|]. lia.
  - replace ((194 <=? b) && (b <=? 223)) with false by lia.
    destruct ((224 <=? b) && (b <=? 239)) eqn:E2; [done|].
    destruct ((240 <=? b) && (b <=? 244)) eqn:E3; [done|]. lia.
  - replace ((194 <=? b) && (b <=? 223)) with false by lia.
    replace ((224 <=? b) && (b <=? 239)) with false by lia.
    destruct ((240 <=? b) && (b <=? 244)) eqn:E3; [done|]. lia.
Qed.

Lemma truncated_tail_dropped_witness :
  uint8ArrayToUtf8 ([0x68; 0x69] ++ [0xe2; 0x82]) = uint8ArrayToUtf8 [0x68; 0x69].
Proof. apply truncated_tail_dropped; reflexivity. Defined.

(** X5: after well-formed bytes, a byte that cannot start a sequence
    (0x80..0xc1, or 0xf5 and above) is skipped and the bytes after it are
    decoded as if it were not there. *)
Theorem stray_byte_skipped (pre rest : list Z) (b : Z) :
  valid_utf8 pre = true ->
  in_range 0x80 0xc1 b = true \/ 0xf5 <= b ->
  uint8ArrayToUtf8 (pre ++ b :: rest) = uint8ArrayToUtf8 (pre ++ rest).
Proof.
  intros Hv Hb. rewrite !uint8ArrayToUtf8_app by done.
  by rewrite invalid_lead_skipped.
Qed.

Lemma stray_byte_skipped_witness :
  uint8ArrayToUtf8 ([0xc3; 0xa9] ++ 0xff :: [0x41]) =
  uint8ArrayToUtf8 ([0xc3; 0xa9] ++ [0x41]).
Proof. apply stray_byte_skipped; [reflexivity | right; lia]. Defined.

(** ** More on the frame parser *)

Lemma split_not_nil (sep : Z) (s : jsstring) : split sep s <> [].
Proof.
  destruct s as [|c s]; [done|]. simpl.
  destruct (c =? sep); [done|]. by destruct (split sep s).
Qed.

Lemma removelast_cons {A} (x : A) (l : list A) :
  l <> [] -> removelast (x :: l) = x :: removelast l.
Proof. by destruct l. Qed.

Lemma last_cons_not_nil {A} (x : A) (l : list A) :
  l <> [] -> last (x :: l) = last l.
Proof. by destruct l. Qed.

(** Splitting a concatenation: the complete segments of the first part,
    then the split of its last segment followed by the second part. *)
Lemma split_app (sep : Z) (s1 s2 : jsstring) :
  split sep (s1 ++ s2) =
    removelast (split sep s1)
      ++ split sep (default [] (last (split sep s1)) ++ s2).
Proof.
  induction s1 as [|c s1 IH]; [done|]. simpl.
  pose proof (split_not_nil sep s1) as Hne.
  destruct (c =? sep) eqn:Hc.
  - rewrite removelast_cons, last_cons_not_nil by done. simpl. by rewrite IH.
  - rewrite IH. destruct (split sep s1) as [|seg [|seg' segs]] eqn:Hs; [done|..].
    + simpl. by rewrite Hc.
    + simpl. done.
Qed.

Lemma complete_lines_app (s1 s2 : jsstring) :
  complete_lines (s1 ++ s2) =
    complete_lines s1 ++ complete_lines (partial_line s1 ++ s2).
Proof.
  unfold complete_lines, partial_line. rewrite split_app.
  rewrite removelast_app by apply split_not_nil. done.
Qed.

Lemma partial_line_app (s1 s2 : jsstring) :
  partial_line (s1 ++ s2) = partial_line (partial_line s1 ++ s2).
Proof.
  unfold partial_line. rewrite split_app.
  rewrite last_app.
  destruct (last (split LF (default [] (last (split LF s1)) ++ s2))) eqn:Hl;
    [done|].
  apply last_None in Hl. by apply split_not_nil in Hl.
Qed.

(** The segments of a split hold no separator. *)
Lemma split_segments (sep : Z) (s : jsstring) :
  Forall (fun seg => sep ∉ seg) (split sep s).
Proof.
  induction s as [|c s IH]; simpl.
  - apply Forall_singleton. apply not_elem_of_nil.
  - destruct (Z.eqb_spec c sep) as [->|Hc].
    + apply Forall_cons. split; [apply not_elem_of_nil | done].
    + destruct (split sep s) as [|seg segs]; simpl.
      * apply Forall_singleton. intros Hin.
        apply elem_of_cons in Hin as [->|Hin]; [done|].
        by apply not_elem_of_nil in Hin.
      * apply Forall_cons in IH as [Hseg Hsegs]. apply Forall_cons.
        split; [|done]. intros Hin.
        apply elem_of_cons in Hin as [->|Hin]; [done|]. by apply Hseg.
Qed.

Lemma partial_line_no_LF (s : jsstring) : LF ∉ partial_line s.
Proof.
  unfold partial_line. pose proof (split_segments LF s) as H.
  destruct (last (split LF s)) as [seg|] eqn:Hl; simpl.
  - rewrite Forall_forall in H. apply H. by apply last_Some_elem_of.
  - apply not_elem_of_nil.
Qed.

(** Lines without a line feed, each followed by one, split back into
    themselves, with nothing left over. *)
Lemma split_terminated_line (line rest : jsstring) :
  LF ∉ line -> split LF (line ++ LF :: rest) = line :: split LF rest.
Proof.
  induction line as [|c line IH]; intros Hn; simpl.
  - done.
  - destruct (Z.eqb_spec c LF) as [->|Hc].
    + exfalso. apply Hn. by left.
    + rewrite IH; [done|]. intros Hin. apply Hn. by right.
Qed.

Lemma split_terminated_lines (lines : list jsstring) :
  Forall (fun line => LF ∉ line) lines ->
  split LF (concat (List.map (fun line => line ++ [LF]) lines)) = lines ++ [[]].
Proof.
  induction 1 as [|line lines Hl _ IH]; [done|]. simpl.
  rewrite <- app_assoc. simpl. rewrite split_terminated_line by done.
  by rewrite IH.
Qed.

Lemma removelast_snoc {A} (l : list A) (x : A) : removelast (l ++ [x]) = l.
Proof. rewrite removelast_app by done. simpl. apply app_nil_r. Qed.

Lemma complete_lines_terminated (lines : list jsstring) :
  Forall (fun line => LF ∉ line) lines ->
  complete_lines (concat (List.map (fun line => line ++ [LF]) lines)) = lines
  /\ partial_line (concat (List.map (fun line => line ++ [LF]) lines)) = [].
Proof.
  intros H. unfold complete_lines, partial_line.
  rewrite split_terminated_lines by done.
  rewrite removelast_snoc, last_snoc. done.
Qed.

Section ParserProperties.
Context {U Resp Val : Type} {env : Env U Resp Val}.

Implicit Types (w : World U Resp Val).

(** A line that is not blank has no effect: it only moves the pending
    message on. *)
Lemma process_line_field line message w :
  is_blank line = false ->
  process_line line message w = (Normal (next_message line message), w).
Proof.
  intros Hb. unfold process_line, next_message.
  fold (is_blank line). rewrite Hb.
  destruct (startsWith COLON line); [done|].
  fold (field_of line).
  change (if startsWith SPACE
               (if 0 <? indexOf COLON line
                then substring_from line (indexOf COLON line + 1) else [])
          then substring_from
                 (if 0 <? indexOf COLON line
                  then substring_from line (indexOf COLON line + 1) else []) 1
          else if 0 <? indexOf COLON line
               then substring_from line (indexOf COLON line + 1) else [])
    with (value_of line).
  by repeat (destruct (jsstring_eqb _ _)).
Qed.

(** A blank line without pending data has no effect either. *)
Lemma process_line_blank_no_data line message w :
  is_blank line = true -> p_data message = None ->
  process_line line message w = (Normal empty_message, w).
Proof.
  intros Hb Hd. unfold process_line. fold (is_blank line).
  by rewrite Hb, Hd.
Qed.

(** Whatever the line, when the body of the loop completes the pending
    message is [next_message]. *)
Lemma process_line_next line message w x :
  fst (process_line line message w) = Normal x ->
  x = next_message line message.
Proof.
  destruct (is_blank line) eqn:Hb.
  - unfold process_line, next_message. fold (is_blank line). rewrite Hb.
    munfold. destruct (match p_data message with _ => _ end w) as [[[]|e] w'];
      simpl; congruence.
  - rewrite process_line_field by done. simpl. congruence.
Qed.


(** *** Text without data *)

Lemma next_message_no_data line message :
  is_data_line line = false -> p_data message = None ->
  p_data (next_message line message) = None.
Proof.
  unfold is_data_line, next_message. intros Hl Hd.
  destruct (is_blank line); [done|].
  destruct (startsWith COLON line); [done|].
  destruct (jsstring_eqb (field_of line) (js "event")); [done|].
  destruct (jsstring_eqb (field_of line) (js "data")); [done|].
  by destruct (jsstring_eqb (field_of line) (js "id")).
Qed.

Lemma process_lines_no_data lines : forall message w,
  Forall (fun line => is_data_line line = false) lines ->
  p_data message = None ->
  process_lines lines message w = (Normal tt, w).
Proof.
  induction lines as [|line lines IH]; intros message w Hl Hd; [done|].
  apply Forall_cons in Hl as [Hline Hl]. simpl. munfold.
  destruct (is_blank line) eqn:Hb.
  - rewrite process_line_blank_no_data by done. by apply IH.
  - rewrite process_line_field by done. apply IH; [done|].
    by apply next_message_no_data.
Qed.

(** X6: text whose complete lines set no [data] delivers nothing, whatever
    ids, events, comments and blank lines it holds: no callback is called,
    the stored id stays, only the buffer moves on. *)
Theorem no_data_no_delivery (text : jsstring) w :
  Forall (fun line => is_data_line line = false)
    (complete_lines (buffer w ++ text)) ->
  feed text w = (Normal tt, with_buffer (partial_line (buffer w ++ text)) w).
Proof.
  intros H. rewrite feed_starts_from_empty_message.
  by apply process_lines_no_data.
Qed.

(** *** Data lines *)

Lemma data_line_not_blank (v : jsstring) : is_blank (js "data:" ++ v) = false.
Proof.
  unfold is_blank, jsstring_eqb. by rewrite !bool_decide_eq_false_2.
Qed.

Lemma next_message_data (v : jsstring) message :
  next_message (js "data:" ++ v) message =
    {| p_id := p_id message; p_event := p_event message;
       p_data := Some (default [] (p_data message) ++ strip_space v ++ [LF]) |}.
Proof.
  unfold next_message. rewrite data_line_not_blank.
  assert (Hf : field_of (js "data:" ++ v) = js "data") by reflexivity.
  assert (Hv : value_of (js "data:" ++ v) = strip_space v) by reflexivity.
  rewrite Hf, Hv. reflexivity.
Qed.

Lemma process_lines_data (vs : list jsstring) : forall message w rest,
  process_lines (List.map (fun v => js "data:" ++ v) vs ++ rest) message w =
  process_lines rest
    {| p_id := p_id message; p_event := p_event message;
       p_data :=
         match vs with
         | [] => p_data message
         | _ :: _ =>
           Some (default [] (p_data message)
                   ++ concat (List.map (fun v => strip_space v ++ [LF]) vs))
         end |} w.
Proof.
  induction vs as [|v vs IH]; intros message w rest.
  - simpl. by destruct message.
  - cbn [List.map app process_lines]. munfold.
    rewrite process_line_field by apply data_line_not_blank.
    rewrite IH, next_message_data. cbn [p_id p_event p_data default].
    f_equal. f_equal. destruct vs; simpl; by rewrite <- ?app_assoc, ?app_nil_r.
Qed.


Lemma messages_after_delivery
    (f : EventSourceMessage -> U -> U * reaction Val unit) m w :
  onmessage init = Some f ->
  messages (trace (snd (call_onmessage m w))) = messages (trace w) ++ [m].
Proof.
  intros Hf. unfold call_onmessage, invoke. rewrite Hf. munfold. simpl.
  destruct (f m (host w)) as [u r]. simpl.
  destruct (calls_abort r); simpl; [|by rewrite messages_app].
  destruct (abort_halts
              (with_host u (with_trace (trace w ++ [EvOnMessage m]) w)))
    as (_ & _ & _ & _ & evs & Ht & Hq).
  rewrite Ht. simpl. rewrite (messages_quiet _ _ Hq). by rewrite messages_app.
Qed.

Lemma data_text_lines (vs : list jsstring) (blank : jsstring) :
  concat (List.map (fun v => js "data:" ++ v ++ [LF]) vs) ++ blank ++ [LF] =
  concat (List.map (fun line => line ++ [LF])
            (List.map (fun v => js "data:" ++ v) vs ++ [blank])).
Proof.
  induction vs as [|v vs IH].
  - simpl. by rewrite app_nil_r.
  - cbn [List.map concat app]. rewrite <- IH.
    by rewrite <- !app_assoc.
Qed.

Lemma is_blank_no_LF (blank : jsstring) : is_blank blank = true -> LF ∉ blank.
Proof.
  unfold is_blank, jsstring_eqb. intros H.
  apply orb_true_iff in H as [H|H]; apply bool_decide_eq_true in H; subst.
  - intros Hin. apply elem_of_cons in Hin as [Hin|Hin]; [discriminate Hin|].
    by apply elem_of_nil in Hin.
  - apply not_elem_of_nil.
Qed.

(** X7: consecutive [data] lines are joined: a record of one or more lines
    ["data:" v], closed by a blank line ([""] or ["\r"]) and fed to a
    parser with an empty buffer, delivers exactly one message, whose data
    is the values in order, each without its single leading space and
    followed by a line feed.  Nothing else is removed from a value: a
    carriage return before the line feed stays in the data. *)
Theorem data_lines_joined
    (f : EventSourceMessage -> U -> U * reaction Val unit)
    (v : jsstring) (vs : list jsstring) (blank : jsstring) w :
  onmessage init = Some f -> buffer w = [] ->
  Forall (fun v => LF ∉ v) (v :: vs) -> is_blank blank = true ->
  messages (trace (snd (feed
    (concat (List.map (fun v => js "data:" ++ v ++ [LF]) (v :: vs))
       ++ blank ++ [LF])
    w))) =
  messages (trace w)
    ++ [{| msg_id := None; msg_event := None;
           msg_data :=
             concat (List.map (fun v => strip_space v ++ [LF]) (v :: vs)) |}].
Proof.
  intros Hf Hb Hvs Hblank. rewrite feed_starts_from_empty_message, Hb.
  set (lines := List.map (fun v => js "data:" ++ v) (v :: vs) ++ [blank]).
  rewrite app_nil_l, (data_text_lines (v :: vs)). fold lines.
  fold (complete_lines (concat (List.map (fun line => line ++ [LF]) lines)))
    (partial_line (concat (List.map (fun line => line ++ [LF]) lines))).
  assert (Hlines : Forall (fun line => LF ∉ line) lines).
  { subst lines. apply Forall_app. split.
    - apply Forall_forall. intros line Hin.
      apply list_elem_of_In, List.in_map_iff in Hin as (a & <- & Ha).
      rewrite Forall_forall in Hvs. specialize (Hvs a).
      intros Hlf. apply elem_of_app in Hlf as [Hlf|Hlf].
      + vm_compute in Hlf.
        repeat (apply elem_of_cons in Hlf as [Hlf|Hlf]; [discriminate Hlf|]).
        by apply elem_of_nil in Hlf.
      + apply Hvs; [by apply list_elem_of_In | done].
    - by apply Forall_singleton, is_blank_no_LF. }
  destruct (complete_lines_terminated lines Hlines) as [-> ->].
  subst lines. rewrite process_lines_data.
  cbn [process_lines p_id p_event p_data default empty_message app].
  unfold process_line. fold (is_blank blank). rewrite Hblank.
  cbn [p_id p_event p_data]. munfold.
  pose proof (messages_after_delivery f
    {| msg_id := None; msg_event := None;
       msg_data :=
         concat (List.map (fun v => strip_space v ++ [LF]) (v :: vs)) |}
    (with_buffer [] w) Hf) as Hm.
  destruct (call_onmessage _ _) as [[[]|e] w']; simpl in *; exact Hm.
Qed.

(** *** Lines without effect *)

(** X8: comment lines and lines whose field is none of [event], [data] and
    [id] (a [retry] line among them) are ignored: they change neither the
    pending message nor the session. *)
Theorem ignored_lines (line : jsstring) message w :
  is_blank line = false ->
  startsWith COLON line = true \/
  (field_of line <> js "event" /\ field_of line <> js "data"
   /\ field_of line <> js "id") ->
  process_line line message w = (Normal message, w).
Proof.
  intros Hb H. rewrite process_line_field by done. f_equal.
  unfold next_message. rewrite Hb.
  destruct (startsWith COLON line); [done|].
  destruct H as [H|(He & Hd & Hi)]; [done|].
  unfold jsstring_eqb. by rewrite !bool_decide_eq_false_2.
Qed.

(** *** Splits that are safe *)

Lemma process_line_quiet line message w :
  quiet_onmessage ->
  fst (process_line line message w) = Normal (next_message line message) /\
  forall s,
    process_line line message (with_buffer s w) =
      (Normal (next_message line message),
       with_buffer s (snd (process_line line message w))).
Proof.
  intros Hq. unfold quiet_onmessage in Hq.
  destruct (is_blank line) eqn:Hb.
  2:{ split; [|intros s]; by rewrite !process_line_field by done. }
  destruct (p_data message) as [d|] eqn:Hd.
  2:{ split; [|intros s]; rewrite !process_line_blank_no_data by done;
      unfold next_message; by rewrite Hb. }
  unfold process_line, next_message. fold (is_blank line). rewrite Hb, Hd.
  unfold call_onmessage, invoke. munfold.
  destruct (onmessage init) as [f|]; simpl.
  - specialize (Hq {| msg_id := p_id message; msg_event := p_event message;
                      msg_data := d |} (host w)).
    destruct (f _ (host w)) as [u r]. simpl in Hq. subst r. simpl.
    destruct (p_id message) as [j|]; [destruct (truthy j)|]; done.
  - destruct (p_id message) as [j|]; [destruct (truthy j)|]; done.
Qed.

Lemma process_lines_quiet lines : forall message w,
  quiet_onmessage ->
  fst (process_lines lines message w) = Normal tt /\
  forall s,
    process_lines lines message (with_buffer s w) =
      (Normal tt, with_buffer s (snd (process_lines lines message w))).
Proof.
  induction lines as [|line lines IH]; intros message w Hq; [done|].
  simpl. munfold.
  destruct (process_line_quiet line message w Hq) as [H1 H2].
  destruct (process_line line message w) as [c w1] eqn:Hp. simpl in *.
  subst c. destruct (IH (next_message line message) w1 Hq) as [H3 H4].
  split; [done|]. intros s. rewrite H2. rewrite H4. done.
Qed.

Lemma process_lines_app_quiet l1 l2 : forall message w,
  quiet_onmessage ->
  process_lines (l1 ++ l2) message w =
    process_lines l2
      (foldl (fun message line => next_message line message) message l1)
      (snd (process_lines l1 message w)).
Proof.
  induction l1 as [|line l1 IH]; intros message w Hq; [done|].
  simpl. munfold.
  destruct (process_line_quiet line message w Hq) as [H1 _].
  destruct (process_line line message w) as [c w1]. simpl in *. subst c.
  by apply IH.
Qed.

Lemma feed_split_pending_empty (t1 t2 : jsstring) w :
  quiet_onmessage ->
  pending_after (complete_lines (buffer w ++ t1)) = empty_message ->
  feed t2 (snd (feed t1 w)) = feed (t1 ++ t2) w.
Proof.
  intros Hq Hp.
  rewrite (feed_starts_from_empty_message (t1 ++ t2) w).
  rewrite app_assoc.
  change (removelast (split LF ((buffer w ++ t1) ++ t2)))
    with (complete_lines ((buffer w ++ t1) ++ t2)).
  change (default [] (last (split LF ((buffer w ++ t1) ++ t2))))
    with (partial_line ((buffer w ++ t1) ++ t2)).
  rewrite (complete_lines_app (buffer w ++ t1) t2).
  rewrite (partial_line_app (buffer w ++ t1) t2).
  rewrite process_lines_app_quiet by done.
  fold (pending_after (complete_lines (buffer w ++ t1))). rewrite Hp.
  rewrite (feed_starts_from_empty_message t1 w).
  fold (complete_lines (buffer w ++ t1)) (partial_line (buffer w ++ t1)).
  set (L1 := complete_lines (buffer w ++ t1)).
  set (r1 := partial_line (buffer w ++ t1)).
  destruct (process_lines_quiet L1 empty_message w Hq) as [_ Hs].
  rewrite !Hs. simpl.
  rewrite feed_starts_from_empty_message. simpl.
  fold (complete_lines (r1 ++ t2)) (partial_line (r1 ++ t2)).
  destruct (process_lines_quiet (complete_lines (r1 ++ t2)) empty_message
              (snd (process_lines L1 empty_message w)) Hq) as [_ Hs2].
  change (with_buffer (partial_line (r1 ++ t2))
            (with_buffer r1 (snd (process_lines L1 empty_message w))))
    with (with_buffer (partial_line (r1 ++ t2))
            (snd (process_lines L1 empty_message w))).
  done.
Qed.

Lemma handleChunk_quiet (data : list Z) w :
  quiet_onmessage -> handleChunk data w = feed (decode data) w.
Proof.
  intros Hq. unfold handleChunk, try_catch.
  pose proof (proj1 (process_lines_quiet
    (removelast (split LF (buffer w ++ decode data))) empty_message
    (with_buffer (default [] (last (split LF (buffer w ++ decode data)))) w)
    Hq)) as Hn.
  rewrite <- feed_starts_from_empty_message in Hn.
  destruct (feed (decode data) w) as [[[]|err] w1]; [done|discriminate Hn].
Qed.

(** X9: when [onmessage] always returns and never aborts, a chunk boundary
    where no record is pending is harmless: if the decoder treats the two
    pieces independently (as [uint8ArrayToUtf8] does after a well-formed
    piece) and the complete lines received up to the cut leave the pending
    message empty (for instance because the last of them is blank),
    handling the two chunks one after the other does exactly what handling
    them as one chunk does. *)
Theorem chunk_split_between_records (b1 b2 : list Z) w :
  quiet_onmessage ->
  decode (b1 ++ b2) = decode b1 ++ decode b2 ->
  pending_after (complete_lines (buffer w ++ decode b1)) = empty_message ->
  handleChunk b2 (snd (handleChunk b1 w)) = handleChunk (b1 ++ b2) w.
Proof.
  intros Hq Hd Hp. rewrite !handleChunk_quiet by done. rewrite Hd.
  by apply feed_split_pending_empty.
Qed.

End ParserProperties.

(** ** More on the session *)

Section MoreSessionProperties.
Context {U Resp Val : Type} {env : Env U Resp Val}.

Implicit Types (w : World U Resp Val) (I : World U Resp Val -> Prop).

(** *** What callbacks can do *)

Lemma settled_emits I e :
  settled I -> reconnects e = false -> preserves I (emit e).
Proof. intros HI He w Hw. by apply (settled_emit I HI). Qed.

Lemma settled_host_call {A} I (f : U -> U * (A + Val)) :
  settled I -> preserves I (host_call f).
Proof.
  intros HI w Hw. munfold. destruct (f (host w)) as [u r]. simpl.
  by apply (settled_host I HI).
Qed.

Lemma settled_abort I : settled I -> preserves I abort.
Proof.
  intros HI. unfold abort.
  apply preserves_bind; [apply preserves_modify, (settled_isAborted I HI)|].
  intros _. apply preserves_bind; [apply preserves_gets|]. intros task.
  apply preserves_bind.
  { destruct task; [|apply preserves_ret].
    apply preserves_bind.
    - apply preserves_try_catch.
      + apply preserves_bind; [by apply settled_emits|].
        intros _. by apply settled_host_call.
      + intros err. by apply settled_emits.
    - intros _. apply preserves_modify, (settled_requestTask I HI). }
  intros _. apply preserves_bind; [apply preserves_gets|]. intros timer.
  apply preserves_bind.
  { destruct timer; [|apply preserves_ret].
    apply preserves_bind; [by apply settled_emits|].
    intros _. apply preserves_modify, (settled_retryTimer I HI). }
  intros _. apply preserves_modify, (settled_buffer I HI).
Qed.

Lemma settled_invoke {A} I (cb : U -> U * reaction Val A) :
  settled I -> preserves I (invoke cb).
Proof.
  intros HI w Hw. unfold invoke. destruct (cb (host w)) as [u r]. simpl.
  destruct (calls_abort r).
  - apply settled_abort; [done|]. by apply (settled_host I HI).
  - by apply (settled_host I HI).
Qed.

Lemma settled_call_onopen I res : settled I -> preserves I (call_onopen res).
Proof.
  intros HI. unfold call_onopen. destruct (onopen init); [|apply preserves_ret].
  apply preserves_bind; [by apply settled_emits|].
  intros _. by apply settled_invoke.
Qed.

Lemma settled_call_onmessage I m :
  settled I -> preserves I (call_onmessage m).
Proof.
  intros HI. unfold call_onmessage.
  destruct (onmessage init); [|apply preserves_ret].
  apply preserves_bind; [by apply settled_emits|].
  intros _. by apply settled_invoke.
Qed.

Lemma settled_call_onclose I : settled I -> preserves I call_onclose.
Proof.
  intros HI. unfold call_onclose.
  destruct (onclose init); [|apply preserves_ret].
  apply preserves_bind; [by apply settled_emits|].
  intros _. by apply settled_invoke.
Qed.

Lemma settled_call_onerror I err :
  settled I -> preserves I (call_onerror err).
Proof.
  intros HI. unfold call_onerror.
  destruct (onerror init); [|apply preserves_ret].
  apply preserves_bind; [by apply settled_emits|].
  intros _. by apply settled_invoke.
Qed.

(** *** The handlers, one by one *)

Lemma settled_onHeadersReceived I res :
  settled I -> preserves I (onHeadersReceived res).
Proof.
  intros HI. unfold onHeadersReceived.
  apply preserves_bind; [apply preserves_gets|].
  intros [|]; [apply preserves_ret|].
  apply preserves_try_catch; [by apply settled_call_onopen|].
  intros err. apply preserves_bind; [by apply settled_emits|].
  intros _. apply preserves_throw.
Qed.

Lemma settled_process_line I line message :
  settled I -> (forall s w, I w -> I (with_lastEventId s w)) ->
  preserves I (process_line line message).
Proof.
  intros HI Hid. unfold process_line.
  destruct (_ || _).
  { apply preserves_bind; [|intros _; apply preserves_ret].
    destruct (p_data message); [|apply preserves_ret].
    apply preserves_bind; [by apply settled_call_onmessage|]. intros _.
    destruct (p_id message) as [i|]; [|apply preserves_ret].
    destruct (truthy i); [|apply preserves_ret].
    apply preserves_modify. intros w. apply Hid. }
  repeat (match goal with
          | |- context [if ?b then _ else _] => destruct b
          end; try apply preserves_ret).
Qed.

(** The [catch] of [handleChunk]. *)
Lemma settled_chunk_catch I err :
  settled I ->
  preserves I
    (emit (EvConsoleError "handleChunk error:" err);;
     call_onerror err;; mret tt).
Proof.
  intros HI. apply preserves_bind; [by apply settled_emits|]. intros _.
  apply preserves_bind; [by apply settled_call_onerror|]. intros _.
  apply preserves_ret.
Qed.

Lemma settled_handleChunk I data :
  settled I ->
  (forall s w, I w -> I (with_buffer s w)) ->
  (forall line message, preserves I (process_line line message)) ->
  preserves I (handleChunk data).
Proof.
  intros HI Hb Hl. unfold handleChunk, feed. apply preserves_try_catch.
  - apply preserves_bind.
    { apply preserves_modify. intros w. apply Hb. }
    intros _. apply preserves_bind; [apply preserves_gets|]. intros buf.
    apply preserves_bind; [apply preserves_modify, Hb|].
    intros _. by apply preserves_process_lines.
  - intros err. by apply settled_chunk_catch.
Qed.

Lemma settled_onChunkReceived I data :
  settled I ->
  (forall s w, I w -> I (with_buffer s w)) ->
  (forall line message, preserves I (process_line line message)) ->
  preserves I (onChunkReceived data).
Proof.
  intros HI Hb Hl. unfold onChunkReceived.
  apply preserves_bind; [apply preserves_gets|].
  intros [|]; [apply preserves_ret|]. by apply settled_handleChunk.
Qed.

Lemma settled_retry_on_error I err :
  settled I -> (forall d, preserves I (scheduleRetry d)) ->
  preserves I (retry_on_error err).
Proof.
  intros HI Hs. unfold retry_on_error. apply preserves_bind.
  - apply preserves_try_catch; [by apply settled_call_onerror|].
    intros _. apply preserves_ret.
  - intros [d|]; [apply Hs | apply preserves_ret].
Qed.

Lemma settled_fail I err :
  settled I -> (forall d, preserves I (scheduleRetry d)) ->
  preserves I (fail err).
Proof.
  intros HI Hs. unfold fail.
  apply preserves_bind; [apply preserves_gets|].
  intros [|]; [apply preserves_ret|].
  apply preserves_bind; [apply preserves_modify, (settled_requestTask I HI)|].
  intros _. by apply settled_retry_on_error.
Qed.

Lemma settled_success I :
  settled I ->
  (forall w, I w -> I (with_retryCount 0 w)) ->
  (forall d, preserves I (scheduleRetry d)) ->
  preserves I success.
Proof.
  intros HI Hc Hs. unfold success.
  apply preserves_bind; [apply preserves_gets|].
  intros [|]; [apply preserves_ret|].
  apply preserves_bind; [apply preserves_modify, Hc|]. intros _.
  apply preserves_bind; [apply preserves_modify, (settled_requestTask I HI)|].
  intros _. apply preserves_bind.
  { apply preserves_try_catch; [by apply settled_call_onclose|].
    intros err. by apply settled_emits. }
  intros _. apply preserves_bind; [apply preserves_gets|]. intros aborted.
  destruct (_ && _); [apply Hs | apply preserves_ret].
Qed.

Lemma settled_connect I :
  settled I ->
  (forall e w, I w -> I (with_trace (trace w ++ [e]) w)) ->
  (forall t w, I w -> I (with_requestTask t w)) ->
  (forall d, preserves I (scheduleRetry d)) ->
  preserves I connect.
Proof.
  intros HI He Ht Hs. unfold connect.
  apply preserves_bind; [apply preserves_gets|].
  intros [|]; [apply preserves_ret|].
  apply preserves_bind; [apply preserves_gets|]. intros id.
  apply preserves_try_catch.
  - apply preserves_bind; [apply preserves_modify; intros w; apply He|].
    intros _. apply preserves_bind; [by apply settled_host_call|].
    intros _. apply preserves_modify, Ht.
  - intros err. apply preserves_bind; [apply preserves_gets|].
    intros [|]; [apply preserves_ret|]. destruct err.
    + apply preserves_bind; [by apply settled_abort|].
      intros _. apply preserves_throw.
    + by apply settled_retry_on_error.
Qed.

(** An invariant kept by every handler is kept by every run. *)
Lemma preserves_run I sigs :
  (forall s, preserves I (handler s)) ->
  forall w, I w -> I (run sigs w).
Proof.
  intros H. induction sigs as [|s sigs IH]; intros w Hw; [done|].
  simpl. apply IH. unfold deliver.
  destruct (enabled s w); [by apply H | done].
Qed.


(** [scheduleRetry] keeps what does not depend on the count, the timer and
    the trace. *)
Lemma fields_scheduleRetry I d :
  (forall n w, I w -> I (with_retryCount n w)) ->
  (forall t w, I w -> I (with_retryTimer t w)) ->
  (forall e w, I w -> I (with_trace (trace w ++ [e]) w)) ->
  preserves I (scheduleRetry d).
Proof.
  intros Hc Ht He. unfold scheduleRetry.
  apply preserves_bind; [apply preserves_gets|].
  intros [|]; [apply preserves_ret|].
  apply preserves_bind; [apply preserves_gets|]. intros count.
  destruct (match maxRetryCount init with Some _ => _ | None => _ end).
  - apply preserves_modify. intros w. apply He.
  - apply preserves_bind; [apply preserves_modify, Hc|]. intros _.
    apply preserves_bind; [apply preserves_modify; intros w; apply He|].
    intros _. apply preserves_modify, Ht.
Qed.

(** *** Counting reconnects *)

Lemma timeouts_snoc (t : list (event Resp Val)) e :
  timeouts (t ++ [e]) = (timeouts t + if is_timeout e then 1 else 0)%nat.
Proof.
  unfold timeouts. rewrite List.filter_app, length_app. simpl.
  by destruct (is_timeout e).
Qed.

Lemma no_reconnect_settled (c : Z) (a t : nat) :
  settled (fun w : World U Resp Val =>
             retryCount w = c /\ attempts (trace w) = a
             /\ timeouts (trace w) = t).
Proof.
  split; try done.
  intros e w He (Hc & Ha & Ht). simpl.
  unfold reconnects in He. apply orb_false_iff in He as [He1 He2].
  rewrite attempts_snoc, timeouts_snoc, He1, He2. repeat split; [done|lia..].
Qed.

Lemma handleChunk_normal (data : list Z) w :
  onerror_returns -> fst (handleChunk data w) = Normal tt.
Proof.
  intros Hr. unfold handleChunk, try_catch.
  destruct (feed (decode data) w) as [[[]|err] w1]; [done|].
  unfold call_onerror, invoke, onerror_returns in *. munfold. simpl.
  destruct (onerror init) as [f|]; [|done]. simpl.
  destruct (Hr err (host w1)) as [d Hd].
  destruct (f err (host w1)) as [u r]. simpl in *. by rewrite Hd.
Qed.

(** X10: handling a chunk never reconnects and never throws on its own:
    whatever the chunk holds and whatever [onmessage] and [onerror] do or
    return, [handleChunk] issues no request, schedules no retry and leaves
    [retryCount] alone; and unless [onerror] itself throws, it returns
    normally, so an exception of [onmessage] never leaves it. *)
Theorem chunk_handling_contained (data : list Z) w :
  retryCount (snd (handleChunk data w)) = retryCount w /\
  attempts (trace (snd (handleChunk data w))) = attempts (trace w) /\
  timeouts (trace (snd (handleChunk data w))) = timeouts (trace w) /\
  (onerror_returns -> fst (handleChunk data w) = Normal tt).
Proof.
  pose proof (no_reconnect_settled (retryCount w) (attempts (trace w))
                (timeouts (trace w))) as HS.
  assert (H : retryCount (snd (handleChunk data w)) = retryCount w /\
              attempts (trace (snd (handleChunk data w))) = attempts (trace w) /\
              timeouts (trace (snd (handleChunk data w))) = timeouts (trace w)).
  { apply (settled_handleChunk _ data HS); [done| |done].
    intros line message. by apply settled_process_line. }
  destruct H as (H1 & H2 & H3). repeat split; try done.
  apply handleChunk_normal.
Qed.

(** *** The buffer *)

Lemma no_LF_settled :
  settled (fun w : World U Resp Val => LF ∉ buffer w).
Proof. split; try done. intros w _. apply not_elem_of_nil. Qed.

Lemma no_LF_handleChunk data w : LF ∉ buffer (snd (handleChunk data w)).
Proof.
  pose proof no_LF_settled as HN.
  assert (Hfeed : LF ∉ buffer (snd (feed (decode data) w))).
  { rewrite feed_starts_from_empty_message.
    apply (preserves_process_lines (fun w => LF ∉ buffer w)).
    - intros line message. by apply settled_process_line.
    - apply partial_line_no_LF. }
  unfold handleChunk, try_catch.
  destruct (feed (decode data) w) as [[[]|err] w1]; [done|].
  by apply (settled_chunk_catch _ err HN).
Qed.

Lemma no_LF_scheduleRetry d :
  preserves (fun w : World U Resp Val => LF ∉ buffer w) (scheduleRetry d).
Proof. by apply fields_scheduleRetry. Qed.

(** X11: the buffer only ever holds an unterminated line: at every point of
    every session it contains no line feed. *)
Theorem buffer_holds_no_line_feed (u : U) (sigs : list (signal Resp Val)) :
  LF ∉ buffer (run sigs (fetchEventSource u)).
Proof.
  pose proof no_LF_settled as HN.
  apply (preserves_run (fun w => LF ∉ buffer w)).
  - intros [res|data| |err| |]; simpl.
    + by apply settled_onHeadersReceived.
    + intros w Hw. unfold onChunkReceived. munfold. simpl.
      destruct (isAborted w); [done|]. apply no_LF_handleChunk.
    + apply settled_success; [done|done|apply no_LF_scheduleRetry].
    + apply settled_fail; [done|apply no_LF_scheduleRetry].
    + unfold retryTimerCallback.
      apply preserves_bind; [by apply preserves_modify|]. intros _.
      apply settled_connect; [done|done|done|apply no_LF_scheduleRetry].
    + by apply settled_abort.
  - unfold fetchEventSource.
    apply (settled_connect (fun w => LF ∉ buffer w));
      [done|done|done|apply no_LF_scheduleRetry|].
    simpl. apply not_elem_of_nil.
Qed.

(** *** The retry count *)

Lemma count_in_bounds_settled : settled (count_in_bounds (U:=U)).
Proof. by split. Qed.

Lemma count_in_bounds_scheduleRetry d :
  preserves count_in_bounds (scheduleRetry d).
Proof.
  intros w [H0 Hm]. unfold scheduleRetry, count_in_bounds in *. munfold. simpl.
  destruct (isAborted w); [done|].
  destruct (maxRetryCount init) as [max|]; simpl.
  - destruct (Z.leb_spec max (retryCount w)); simpl; [done|]. lia.
  - lia.
Qed.

(** X12: [retryCount] stays within its bounds: at every point of every
    session it is at least 0 and, when [maxRetryCount] is given, at most
    [maxRetryCount] (at most 0 when that is negative). *)
Theorem retryCount_stays_in_bounds (u : U) (sigs : list (signal Resp Val)) :
  0 <= retryCount (run sigs (fetchEventSource u)) /\
  forall max, maxRetryCount init = Some max ->
    retryCount (run sigs (fetchEventSource u)) <= Z.max max 0.
Proof.
  pose proof count_in_bounds_settled as HB.
  assert (H : count_in_bounds (run sigs (fetchEventSource u))).
  { apply preserves_run.
    - intros [res|data| |err| |]; simpl.
      + by apply settled_onHeadersReceived.
      + apply settled_onChunkReceived; [done|done|].
        intros line message. by apply settled_process_line.
      + apply settled_success; [done| |apply count_in_bounds_scheduleRetry].
        intros w [H0 Hm]. unfold count_in_bounds. simpl.
        split; [done|]. destruct (maxRetryCount init); lia.
      + apply settled_fail; [done|apply count_in_bounds_scheduleRetry].
      + unfold retryTimerCallback.
        apply preserves_bind; [by apply preserves_modify|]. intros _.
        apply settled_connect;
          [done|done|done|apply count_in_bounds_scheduleRetry].
      + by apply settled_abort.
    - unfold fetchEventSource.
      apply (settled_connect count_in_bounds);
        [done|done|done|apply count_in_bounds_scheduleRetry|].
      unfold count_in_bounds. simpl. split; [done|].
      destruct (maxRetryCount init); lia. }
  destruct H as [H0 Hm]. split; [done|]. intros max Hmax.
  by rewrite Hmax in Hm.
Qed.

(** *** The stored event id *)

Lemma id_kept_settled (id0 : jsstring) :
  settled (fun w : World U Resp Val =>
             lastEventId w = id0 \/ truthy (lastEventId w) = true).
Proof. by split. Qed.

Lemma id_kept_scheduleRetry (id0 : jsstring) d :
  preserves (fun w : World U Resp Val =>
               lastEventId w = id0 \/ truthy (lastEventId w) = true)
    (scheduleRetry d).
Proof. by apply fields_scheduleRetry. Qed.

Lemma id_kept_process_line (id0 : jsstring) line message :
  preserves (fun w : World U Resp Val =>
               lastEventId w = id0 \/ truthy (lastEventId w) = true)
    (process_line line message).
Proof.
  pose proof (id_kept_settled id0) as HI. unfold process_line.
  destruct (_ || _).
  { apply preserves_bind; [|intros _; apply preserves_ret].
    destruct (p_data message); [|apply preserves_ret].
    apply preserves_bind; [by apply settled_call_onmessage|]. intros _.
    destruct (p_id message) as [i|]; [|apply preserves_ret].
    destruct (truthy i) eqn:Hi; [|apply preserves_ret].
    apply preserves_modify. intros w _. by right. }
  repeat (match goal with
          | |- context [if ?b then _ else _] => destruct b
          end; try apply preserves_ret).
Qed.

(** X13: the stored event id is never cleared: whatever happens to a
    session, [lastEventId] either is what it was or is a non-empty id. *)
Theorem stored_id_never_cleared (sigs : list (signal Resp Val)) w :
  lastEventId (run sigs w) = lastEventId w \/
  truthy (lastEventId (run sigs w)) = true.
Proof.
  pose proof (id_kept_settled (lastEventId w)) as HI.
  apply (preserves_run
           (fun w' => lastEventId w' = lastEventId w
                      \/ truthy (lastEventId w') = true)); [|by left].
  intros [res|data| |err| |]; simpl.
  - by apply settled_onHeadersReceived.
  - apply settled_onChunkReceived; [done|done|].
    intros line message. apply id_kept_process_line.
  - apply settled_success; [done|done|apply id_kept_scheduleRetry].
  - apply settled_fail; [done|apply id_kept_scheduleRetry].
  - unfold retryTimerCallback.
    apply preserves_bind; [by apply preserves_modify|]. intros _.
    apply settled_connect; [done|done|done|apply id_kept_scheduleRetry].
  - by apply settled_abort.
Qed.


(** *** One request or one timer *)


Lemma no_request_scheduleRetry d :
  preserves (fun w : World U Resp Val => requestTask w = None)
    (scheduleRetry d).
Proof. by apply fields_scheduleRetry. Qed.






(** *** The headers of a request *)

Lemma trace_grows_settled (t0 : list (event Resp Val)) :
  settled (fun w : World U Resp Val => exists new, trace w = t0 ++ new).
Proof.
  split; try done.
  intros e w _ [new Hn]. exists (new ++ [e]). simpl.
  by rewrite Hn, app_assoc.
Qed.

Lemma trace_grows_scheduleRetry (t0 : list (event Resp Val)) d :
  preserves (fun w : World U Resp Val => exists new, trace w = t0 ++ new)
    (scheduleRetry d).
Proof.
  apply fields_scheduleRetry; try done.
  intros e w [new Hn]. exists (new ++ [e]). simpl. by rewrite Hn, app_assoc.
Qed.

(** X16: every connect attempt of a session that is not aborted starts with
    one request.  Its headers are the [headers] of the caller, except that
    a non-empty stored id is sent as [last-event-id], replacing a header of
    that name; with no stored id the headers go out unchanged, as in the
    first request of a session. *)
Theorem request_headers w :
  isAborted w = false ->
  exists h rest,
    trace (snd (connect w)) = trace w ++ EvRequest h :: rest /\
    (forall k, k <> LastEventId -> h !! k = headers init !! k) /\
    (truthy (lastEventId w) = true -> h !! LastEventId = Some (lastEventId w)) /\
    (lastEventId w = [] -> h = headers init).
Proof.
  intros Ha. unfold connect. munfold. simpl. rewrite Ha. simpl.
  set (h := if truthy (lastEventId w) then _ else _).
  assert (Hh : (forall k, k <> LastEventId -> h !! k = headers init !! k) /\
               (truthy (lastEventId w) = true ->
                h !! LastEventId = Some (lastEventId w)) /\
               (lastEventId w = [] -> h = headers init)).
  { subst h. destruct (lastEventId w) as [|c id]; simpl.
    - by repeat split.
    - repeat split; try done.
      + intros k Hk. by rewrite lookup_insert_ne.
      + intros _. by rewrite lookup_insert_eq. }
  exists h.
  destruct (Taro_request h (host w)) as [u [[]|v]]; simpl.
  - exists []. by split.
  - rewrite Ha.
    destruct (settled_retry_on_error _ (Foreign v)
                (trace_grows_settled (trace w ++ [EvRequest h]))
                (trace_grows_scheduleRetry (trace w ++ [EvRequest h]))
                (with_host u (with_trace (trace w ++ [EvRequest h]) w)))
      as [rest Hrest].
    { exists []. simpl. by rewrite app_nil_r. }
    exists rest. split; [|done]. rewrite Hrest. by rewrite <- app_assoc.
Qed.

(** *** What [onerror] decides *)

(** X17: after a failure [onerror] alone decides about the retry.  The
    request is forgotten; if there is no [onerror], or it returns null or
    throws, nothing is scheduled and the count stays; if it returns a
    delay and the session can still retry, the timer is armed with exactly
    that delay and the count goes up by one; if it returns a delay but the
    retries are used up, nothing is scheduled. *)
Theorem onerror_decides_retry (err : Val) w :
  isAborted w = false ->
  (forall f, onerror init = Some f ->
     calls_abort (snd (f (Foreign err) (host w))) = false) ->
  requestTask (fire (Failed err) w) = None /\
  match onerror_delay (Foreign err) w with
  | Some d =>
    if can_retry w then
      retryTimer (fire (Failed err) w) = Some d /\
      retryCount (fire (Failed err) w) = retryCount w + 1
    else
      retryTimer (fire (Failed err) w) = retryTimer w /\
      retryCount (fire (Failed err) w) = retryCount w
  | None =>
    retryTimer (fire (Failed err) w) = retryTimer w /\
    retryCount (fire (Failed err) w) = retryCount w /\
    timeouts (trace (fire (Failed err) w)) = timeouts (trace w)
  end.
Proof.
  intros Ha Hf. unfold fire, onerror_delay. simpl.
  unfold fail, retry_on_error, call_onerror, invoke. munfold. simpl.
  rewrite Ha. destruct (onerror init) as [f|]; simpl.
  2:{ by repeat split. }
  specialize (Hf f eq_refl).
  destruct (f (Foreign err) (host w)) as [u r]. simpl in *. rewrite Hf.
  destruct (outcome r) as [[d|]|v]; simpl.
  - split.
    + apply no_request_scheduleRetry. done.
    + set (w1 := with_host u
                   (with_trace (trace w ++ [EvOnError (Foreign err)])
                      (with_requestTask None w))).
      assert (Hcan : can_retry w1 = can_retry w) by done.
      destruct (can_retry w) eqn:Hc.
      * by rewrite scheduleRetry_armed.
      * by destruct (scheduleRetry_declined d w1 Hcan) as (_ & ? & ? & _).
  - repeat split; try done. by rewrite timeouts_snoc, Nat.add_0_r.
  - repeat split; try done. by rewrite timeouts_snoc, Nat.add_0_r.
Qed.

(** *** A clean close that ends the session *)

(** X18: a clean close is not followed by a reconnect when [openWhenHidden]
    is true, or when [onclose] aborts the session: the count is reset, the
    request forgotten, and no retry is scheduled. *)
Theorem clean_close_without_reconnect w :
  isAborted w = false ->
  openWhenHidden init = true \/
  (exists f, onclose init = Some f /\
             calls_abort (snd (f (host w))) = true) ->
  retryCount (fire Completed w) = 0 /\
  requestTask (fire Completed w) = None /\
  attempts (trace (fire Completed w)) = attempts (trace w) /\
  timeouts (trace (fire Completed w)) = timeouts (trace w).
Proof.
  intros Ha Hend. unfold fire. simpl. unfold success. munfold. simpl.
  rewrite Ha.
  set (w1 := with_requestTask None (with_retryCount 0 w)).
  set (I := fun w' : World U Resp Val =>
              (retryCount w' = 0 /\ attempts (trace w') = attempts (trace w)
               /\ timeouts (trace w') = timeouts (trace w))
              /\ requestTask w' = None).
  assert (HI : settled I).
  { pose proof (no_reconnect_settled 0 (attempts (trace w))
                  (timeouts (trace w))) as H1.
    split.
    - intros u w' [H2 H3]. split; [by apply (settled_host _ H1)|done].
    - intros w' [H2 H3]. split; [by apply (settled_isAborted _ H1)|done].
    - intros w' [H2 H3]. split; [by apply (settled_requestTask _ H1)|done].
    - intros w' [H2 H3]. split; [by apply (settled_retryTimer _ H1)|done].
    - intros w' [H2 H3]. split; [by apply (settled_buffer _ H1)|done].
    - intros e w' He [H2 H3]. split; [by apply (settled_emit _ H1)|done]. }
  assert (Hclose : I (snd (try_catch call_onclose
             (fun err => emit (EvConsoleError "onclose error:" err)) w1))).
  { apply (preserves_try_catch I); [| |done].
    - by apply settled_call_onclose.
    - intros err. by apply settled_emits. }
  assert (Hab : openWhenHidden init = true \/
                isAborted (snd (try_catch call_onclose
                  (fun err => emit (EvConsoleError "onclose error:" err)) w1))
                = true).
  { destruct Hend as [Ho|(f & Hf & Hc)]; [by left|]. right.
    unfold try_catch, call_onclose, invoke. rewrite Hf. munfold. simpl.
    destruct (f (host w)) as [u r]. simpl in *. rewrite Hc.
    set (w2 := with_host u (with_trace (trace w ++ [EvOnClose]) w1)).
    destruct (abort_halts w2) as (_ & (Hh & _) & _).
    destruct (outcome r); simpl; done. }
  unfold try_catch in Hclose, Hab. munfold.
  destruct (call_onclose w1) as [[[]|e] w2]; simpl in *.
  - replace (negb (isAborted w2) && negb (openWhenHidden init)) with false.
    + destruct Hclose as [(?&?&?) ?]. done.
    + destruct Hab as [->| ->]; by rewrite ?andb_false_r.
  - replace (negb (isAborted w2) && negb (openWhenHidden init)) with false.
    + destruct Hclose as [(?&?&?) ?]. done.
    + destruct Hab as [->| ->]; by rewrite ?andb_false_r.
Qed.


(** *** Reconnects come from timers *)

Lemma scheduled_settled :
  settled (fun w : World U Resp Val =>
             Z.of_nat (attempts (trace w)) + pending w
             <= 1 + Z.of_nat (timeouts (trace w))).
Proof.
  split; unfold pending; simpl; try done.
  - intros w H. destruct (retryTimer w); lia.
  - intros e w He H. unfold reconnects in He.
    apply orb_false_iff in He as [He1 He2].
    rewrite attempts_snoc, timeouts_snoc, He1, He2. lia.
Qed.

Lemma scheduled_scheduleRetry d :
  preserves (fun w : World U Resp Val =>
               Z.of_nat (attempts (trace w)) + pending w
               <= 1 + Z.of_nat (timeouts (trace w)))
    (scheduleRetry d).
Proof.
  intros w H. unfold scheduleRetry, pending in *. munfold. simpl.
  destruct (isAborted w); [done|].
  destruct (match maxRetryCount init with Some _ => _ | None => _ end); simpl.
  - rewrite attempts_snoc, timeouts_snoc. simpl. lia.
  - rewrite attempts_snoc, timeouts_snoc. simpl.
    destruct (retryTimer w); lia.
Qed.

Lemma scheduled_connect w :
  retryTimer w = None ->
  Z.of_nat (attempts (trace w)) + 1 <= 1 + Z.of_nat (timeouts (trace w)) ->
  Z.of_nat (attempts (trace (snd (connect w)))) + pending (snd (connect w))
    <= 1 + Z.of_nat (timeouts (trace (snd (connect w)))).
Proof.
  intros Ht H. unfold connect. munfold. simpl.
  destruct (isAborted w) eqn:Ha; simpl.
  { unfold pending. rewrite Ht. lia. }
  destruct (Taro_request _ (host w)) as [u [[]|v]]; simpl.
  - unfold pending. simpl. rewrite Ht, attempts_snoc, timeouts_snoc. simpl. lia.
  - rewrite Ha.
    apply (settled_retry_on_error _ (Foreign v) scheduled_settled
             scheduled_scheduleRetry).
    unfold pending. simpl. rewrite Ht, attempts_snoc, timeouts_snoc. simpl. lia.
Qed.

(** X15: a session reconnects only through its retry timer: at every point
    the number of requests made is at most one (the first) more than the
    number of retries scheduled. *)
Theorem reconnects_are_scheduled (u : U) (sigs : list (signal Resp Val)) :
  (attempts (trace (run sigs (fetchEventSource u))) <=
   1 + timeouts (trace (run sigs (fetchEventSource u))))%nat.
Proof.
  pose proof scheduled_settled as HI.
  assert (H : forall w,
    Z.of_nat (attempts (trace w)) + pending w
      <= 1 + Z.of_nat (timeouts (trace w)) ->
    Z.of_nat (attempts (trace (run sigs w))) + pending (run sigs w)
      <= 1 + Z.of_nat (timeouts (trace (run sigs w)))).
  { induction sigs as [|s sigs IH]; intros w Hw; [done|].
    simpl. apply IH. unfold deliver.
    destruct (enabled s w) eqn:He; [|done]. unfold fire.
    destruct s as [res|data| |err| |]; simpl in *.
    - by apply (settled_onHeadersReceived _ res HI).
    - apply (settled_onChunkReceived _ data HI); [done| |done].
      intros line message. by apply settled_process_line.
    - apply (settled_success _ HI); [done|apply scheduled_scheduleRetry|done].
    - apply (settled_fail _ err HI); [apply scheduled_scheduleRetry|done].
    - apply bool_decide_eq_true in He as [d Hd].
      unfold retryTimerCallback. munfold. simpl.
      apply scheduled_connect; simpl; [done|].
      unfold pending in Hw. rewrite Hd in Hw. lia.
    - by apply (settled_abort _ HI). }
  specialize (H (fetchEventSource u)).
  unfold pending in H.
  assert (H0 : Z.of_nat (attempts (trace (fetchEventSource u)))
               + pending (fetchEventSource u)
               <= 1 + Z.of_nat (timeouts (trace (fetchEventSource u)))).
  { unfold fetchEventSource. apply scheduled_connect; [done|].
    unfold initial, attempts, timeouts. simpl. lia. }
  specialize (H H0). destruct (retryTimer (run sigs (fetchEventSource u))); lia.
Qed.

(** *** Exceptions *)

Lemma abort_normal w : fst (abort w) = Normal tt.
Proof.
  unfold abort. munfold. simpl.
  destruct (requestTask w) as [t|]; simpl.
  - destruct (RequestTask_abort _) as [u [[]|v]]; simpl;
      by destruct (retryTimer w).
  - by destruct (retryTimer w).
Qed.

Lemma success_normal w : fst (success w) = Normal tt.
Proof.
  unfold success, call_onclose, invoke. munfold. simpl.
  destruct (isAborted w); [done|].
  destruct (onclose init) as [f|]; simpl.
  - destruct (f (host w)) as [u r]. simpl.
    destruct (outcome r) as [[]|v]; simpl;
      (match goal with
       | |- context [if ?b then scheduleRetry _ else _] => destruct b
       end; [apply scheduleRetry_normal | done]).
  - match goal with
    | |- context [if ?b then scheduleRetry _ else _] => destruct b
    end; [apply scheduleRetry_normal | done].
Qed.

Lemma fail_normal err w : fst (fail err w) = Normal tt.
Proof.
  unfold fail. munfold. simpl. destruct (isAborted w); [done|].
  apply retry_on_error_normal.
Qed.

(** X19: which handlers can throw.  The [success] and [fail] callbacks, the
    retry timer callback and [abort] always return normally: what
    [onclose], [onerror], [Taro.request] and [requestTask.abort] throw is
    caught.  The chunk listener returns normally unless [onerror] throws
    from its [catch] block.  Only the headers listener is left out: it
    rethrows what [onopen] throws. *)
Theorem exceptions_contained (s : signal Resp Val) w :
  (forall res, s <> HeadersReceived res) ->
  ((exists data, s = ChunkReceived data) -> onerror_returns) ->
  fst (handler s w) = Normal tt.
Proof.
  intros Hh Hc. destruct s as [res|data| |err| |]; simpl.
  - by destruct (Hh res).
  - unfold onChunkReceived. munfold. simpl.
    destruct (isAborted w); [done|]. apply handleChunk_normal.
    apply Hc. by exists data.
  - apply success_normal.
  - apply fail_normal.
  - unfold retryTimerCallback. munfold. simpl. apply connect_normal.
  - apply abort_normal.
Qed.

End MoreSessionProperties.

(** ** The further properties at concrete inputs *)

(** A comment, an [id] line, a [retry] line and an unfinished line. *)
Lemma no_data_no_delivery_witness :
  @feed _ _ _ (Scenario.env (Scenario.config None))
    (js ": hi" ++ [LF] ++ js "id: 7" ++ [LF] ++ js "retry: 5" ++ [LF]
       ++ js "da")
    (initial tt) =
  (Normal tt,
   with_buffer
     (partial_line
        (buffer (initial tt : World unit unit unit) ++
         js ": hi" ++ [LF] ++ js "id: 7" ++ [LF] ++ js "retry: 5" ++ [LF]
           ++ js "da"))
     (initial tt)).
Proof.
  apply (no_data_no_delivery (env := Scenario.env (Scenario.config None))).
  apply (bool_decide_unpack _). vm_compute. exact I.
Defined.

(** Two [data] lines with CRLF line ends. *)
Lemma data_lines_joined_witness :
  messages (trace (snd (@feed _ _ _ (Scenario.env (Scenario.config None))
    (concat (List.map (fun v => js "data:" ++ v ++ [LF])
               ((js " a" ++ [CR]) :: [js "b" ++ [CR]]))
       ++ [CR] ++ [LF])
    (initial tt)))) =
  messages (trace (initial tt : World unit unit unit))
    ++ [{| msg_id := None; msg_event := None;
           msg_data :=
             concat (List.map (fun v => strip_space v ++ [LF])
                       ((js " a" ++ [CR]) :: [js "b" ++ [CR]])) |}].
Proof.
  apply (data_lines_joined (env := Scenario.env (Scenario.config None))
           (fun _ u => (u, Scenario.returns tt))).
  - reflexivity.
  - reflexivity.
  - apply (bool_decide_unpack _). vm_compute. exact I.
  - reflexivity.
Defined.

(** Two records in two chunks. *)
Lemma chunk_split_between_records_witness :
  @handleChunk _ _ _ (Scenario.env (Scenario.config None))
    (js "data: b" ++ [LF; LF])
    (snd (@handleChunk _ _ _ (Scenario.env (Scenario.config None))
            (js "data: a" ++ [LF; LF]) (initial tt))) =
  @handleChunk _ _ _ (Scenario.env (Scenario.config None))
    ((js "data: a" ++ [LF; LF]) ++ js "data: b" ++ [LF; LF]) (initial tt).
Proof.
  apply (chunk_split_between_records
           (env := Scenario.env (Scenario.config None))).
  - intros m u. reflexivity.
  - reflexivity.
  - reflexivity.
Defined.

(** A [retry] line. *)
Lemma ignored_lines_witness :
  @process_line _ _ _ (Scenario.env (Scenario.config None))
    (js "retry: 5000") empty_message (initial tt) =
  (Normal empty_message, initial tt).
Proof.
  apply (ignored_lines (env := Scenario.env (Scenario.config None))).
  - reflexivity.
  - right. repeat split; vm_compute; discriminate.
Defined.

(** A reconnect with the stored id 7. *)
Lemma request_headers_witness :
  exists h rest,
    trace (snd (@connect _ _ _ (Scenario.env (Scenario.config None))
                  (with_lastEventId (js "7") (initial tt)))) =
      trace (with_lastEventId (js "7") (initial tt))
        ++ EvRequest h :: rest /\
    (forall k, k <> LastEventId ->
       h !! k = headers (Scenario.config None) !! k) /\
    (truthy (lastEventId (with_lastEventId (js "7")
                            (initial tt : World unit unit unit))) = true ->
     h !! LastEventId =
       Some (lastEventId (with_lastEventId (js "7")
                            (initial tt : World unit unit unit)))) /\
    (lastEventId (with_lastEventId (js "7")
                    (initial tt : World unit unit unit)) = [] ->
     h = headers (Scenario.config None)).
Proof.
  apply (request_headers (env := Scenario.env (Scenario.config None))).
  reflexivity.
Defined.

(** The first request fails, with one retry allowed. *)
Lemma onerror_decides_retry_witness :
  requestTask
    (@fire _ _ _ (Scenario.env (Scenario.config (Some 1))) (Failed tt)
       (Scenario.session (Scenario.config (Some 1)) [])) = None /\
  retryTimer
    (@fire _ _ _ (Scenario.env (Scenario.config (Some 1))) (Failed tt)
       (Scenario.session (Scenario.config (Some 1)) [])) = Some 1000 /\
  retryCount
    (@fire _ _ _ (Scenario.env (Scenario.config (Some 1))) (Failed tt)
       (Scenario.session (Scenario.config (Some 1)) [])) =
  retryCount (Scenario.session (Scenario.config (Some 1)) []) + 1.
Proof.
  apply (onerror_decides_retry
           (env := Scenario.env (Scenario.config (Some 1))) tt
           (Scenario.session (Scenario.config (Some 1)) [])).
  - reflexivity.
  - intros f Hf. injection Hf as <-. reflexivity.
Defined.

(** A clean close with [openWhenHidden] set. *)
Lemma clean_close_without_reconnect_witness :
  retryCount
    (@fire _ _ _ (Scenario.env Scenario.config_openWhenHidden) Completed
       (Scenario.session Scenario.config_openWhenHidden [])) = 0 /\
  requestTask
    (@fire _ _ _ (Scenario.env Scenario.config_openWhenHidden) Completed
       (Scenario.session Scenario.config_openWhenHidden [])) = None /\
  attempts (trace
    (@fire _ _ _ (Scenario.env Scenario.config_openWhenHidden) Completed
       (Scenario.session Scenario.config_openWhenHidden []))) =
  attempts (trace (Scenario.session Scenario.config_openWhenHidden [])) /\
  timeouts (trace
    (@fire _ _ _ (Scenario.env Scenario.config_openWhenHidden) Completed
       (Scenario.session Scenario.config_openWhenHidden []))) =
  timeouts (trace (Scenario.session Scenario.config_openWhenHidden [])).
Proof.
  apply (clean_close_without_reconnect
           (env := Scenario.env Scenario.config_openWhenHidden)).
  - reflexivity.
  - left. reflexivity.
Defined.

(** A chunk, with an [onerror] that returns. *)
Lemma exceptions_contained_witness :
  fst (@handler _ _ _ (Scenario.env (Scenario.config None))
         (ChunkReceived (js "data: a" ++ [LF; LF]))
         (Scenario.session (Scenario.config None) [])) = Normal tt.
Proof.
  apply (exceptions_contained
           (env := Scenario.env (Scenario.config None))).
  - intros res. discriminate.
  - intros _ err u. by exists (Some 1000).
Defined.
